(** * A NATS transport for go-micro: model and properties

    Shallow embedding of [transport/nats/nats.go]: the server-side socket
    ([ntportSocket]), the listener and its accept loop ([ntportListener]),
    the client ([ntportClient]) and the transport factory ([NewTransport],
    [Dial], [Listen]).

    Go channels are records (capacity, buffer, closed flag); an operation that
    would park the calling goroutine yields [Blocked], a run-time panic yields
    [Panicked]. Sockets are heap objects shared between the accept loop, the
    handler goroutine and the clean-up goroutine, so the listener state holds
    a store of sockets addressed by location and the registry maps subjects to
    locations. Critical sections guarded by a mutex are atomic steps; in the
    accept loop the lookup of the socket, the check that it is not closed
    (which holds no lock) and the locked append to its backlog are three
    steps, between which the other goroutines run. *)

From stdpp Require Import gmap strings pretty list fin_maps.

Open Scope string_scope.
Open Scope list_scope.

(** ** Values shared by all components *)

(** [nats.Msg]: the frame as delivered by the bus. *)
Record Msg := mkMsg { Subject : string; Reply : string; Data : string }.

(** Go's [error] values met in this package; [nil] is [None] of [option error]. *)
Inductive error :=
  | ErrTimeout            (* nats.ErrTimeout *)
  | ErrConnectionClosed   (* nats.ErrConnectionClosed *)
  | ErrBadSubscription    (* nats.ErrBadSubscription *)
  | EOF                   (* io.EOF *)
  | ErrorString (s : string)  (* errors.New(s) *)
  | ErrJSON (s : string)      (* an error of encoding/json *)
  | ErrBus (s : string).      (* any other error of the bus *)

(** Result of running a piece of Go code to its end, if it gets there. *)
Inductive outcome (A : Type) :=
  | Done (a : A)
  | Blocked
  | Panicked.
Arguments Done {A} a.
Arguments Blocked {A}.
Arguments Panicked {A}.

#[global] Instance outcome_bind : MBind outcome := λ A B f x,
  match x with
  | Done a => f a
  | Blocked => Blocked
  | Panicked => Panicked
  end.

#[global] Instance error_eq_dec : EqDecision error.
Proof. solve_decision. Defined.

#[global] Instance Msg_eq_dec : EqDecision Msg.
Proof. solve_decision. Defined.

(** ** Channels *)

Module Chan.

Record chan (A : Type) := mk { cap : nat; buf : list A; closed : bool }.
Arguments mk {A}.
Arguments cap {A}.
Arguments buf {A}.
Arguments closed {A}.

(** [make(chan A, n)] *)
Definition make {A} (n : nat) : chan A := mk n [] false.

Inductive recv_result (A : Type) :=
  | Received (v : A) (c : chan A)   (* v, true *)
  | RecvClosed                      (* zero value, false *)
  | RecvBlock.
Arguments Received {A}.
Arguments RecvClosed {A}.
Arguments RecvBlock {A}.

(** [v, ok := <-c] with no sender parked on the channel. *)
Definition recv {A} (c : chan A) : recv_result A :=
  match buf c with
  | v :: rest => Received v (mk (cap c) rest (closed c))
  | [] => if closed c then RecvClosed else RecvBlock
  end.

Inductive send_result (A : Type) :=
  | Sent (c : chan A)
  | SendBlock
  | SendPanic.
Arguments Sent {A}.
Arguments SendBlock {A}.
Arguments SendPanic {A}.

(** [c <- v] with no receiver parked on the channel: the value goes into
    the buffer if there is room. *)
Definition send {A} (v : A) (c : chan A) : send_result A :=
  if closed c then SendPanic
  else if bool_decide (length (buf c) < cap c)
       then Sent (mk (cap c) (buf c ++ [v]) false)
       else SendBlock.

(** [close(c)]; closing a closed channel panics. *)
Definition close {A} (c : chan A) : option (chan A) :=
  if closed c then None else Some (mk (cap c) (buf c) true).

End Chan.

(** ** The bus *)

Definition Conn := nat.

Module Bus.

(** Modelled from the spec: the bus adapter of package [nats] (section 6,
    an external collaborator). Each subscribed subject has one queue, owned
    by the connection that subscribed; publishing appends to the queue of
    the subject, and without a subscriber the frame is lost; the next
    message of an empty queue is a timeout. [nuid] is the state of the
    package-level generator behind [nats.NewInbox]. *)
Record World := mkWorld {
  subs : gmap string (Conn * list Msg);
  gone : gset Conn;
  nuid : nat
}.

Definition publish (c : Conn) (fr : Msg) (w : World) : option error * World :=
  if bool_decide (c ∈ gone w) then (Some ErrConnectionClosed, w)
  else match subs w !! Subject fr with
       | Some (o, q) =>
           (None, mkWorld (<[Subject fr := (o, q ++ [fr])]> (subs w)) (gone w) (nuid w))
       | None => (None, w)
       end.

(** [c.Publish(subj, data)] *)
Definition Publish (c : Conn) (subj data : string) (w : World) : option error * World :=
  publish c (mkMsg subj "" data) w.

(** [c.PublishRequest(subj, reply, data)] *)
Definition PublishRequest (c : Conn) (subj reply data : string) (w : World)
  : option error * World :=
  publish c (mkMsg subj reply data) w.

(** [c.SubscribeSync(subj)]: the subscription is named by its subject. *)
Definition SubscribeSync (c : Conn) (subj : string) (w : World)
  : (string + error) * World :=
  if bool_decide (c ∈ gone w) then (inr ErrConnectionClosed, w)
  else match subs w !! subj with
       | Some _ => (inl subj, w)
       | None => (inl subj, mkWorld (<[subj := (c, [])]> (subs w)) (gone w) (nuid w))
       end.

(** [sub.NextMsg(timeout)] *)
Definition NextMsg (sub : string) (w : World) : (Msg + error) * World :=
  match subs w !! sub with
  | None => (inr ErrBadSubscription, w)
  | Some (o, []) => (inr ErrTimeout, w)
  | Some (o, fr :: q) => (inl fr, mkWorld (<[sub := (o, q)]> (subs w)) (gone w) (nuid w))
  end.

(** [sub.Unsubscribe()] *)
Definition Unsubscribe (sub : string) (w : World) : option error * World :=
  match subs w !! sub with
  | None => (Some ErrBadSubscription, w)
  | Some _ => (None, mkWorld (delete sub (subs w)) (gone w) (nuid w))
  end.

(** [c.Close()] *)
Definition Close (c : Conn) (w : World) : World :=
  mkWorld (filter (λ kv, fst (snd kv) ≠ c) (subs w)) ({[c]} ∪ gone w) (nuid w).

Section inbox.
(** The name [nats.NewInbox] gives to the n-th value of its generator. *)
Variable inbox_name : nat → string.

(** [nats.NewInbox()] *)
Definition NewInbox (w : World) : string * World :=
  (inbox_name (nuid w), mkWorld (subs w) (gone w) (S (nuid w))).
End inbox.

End Bus.

(** ** The server-side socket *)

Module Socket.

(** [ntportSocket]. [once] holds whether the [sync.Once] has fired; the
    embedded mutex guards [bl] and has no state of its own here. *)
Record ntportSocket := mk {
  conn : Conn;
  m : Msg;
  r : Chan.chan Msg;
  once : bool;
  close : Chan.chan bool;
  bl : list Msg
}.

Definition set_r (c : Chan.chan Msg) (n : ntportSocket) : ntportSocket :=
  mk (conn n) (m n) c (once n) (close n) (bl n).
Definition set_bl (l : list Msg) (n : ntportSocket) : ntportSocket :=
  mk (conn n) (m n) (r n) (once n) (close n) l.
Definition set_close (c : Chan.chan bool) (n : ntportSocket) : ntportSocket :=
  mk (conn n) (m n) (r n) (once n) c (bl n).
Definition set_once (b : bool) (n : ntportSocket) : ntportSocket :=
  mk (conn n) (m n) (r n) b (close n) (bl n).

(** The statement shared by [Recv] (under [len(n.bl) > 0]) and by the accept
    loop (after its append):
    [select { case n.r <- n.bl[0]: n.bl = n.bl[1:]; default: }] *)
Definition handoff (n : ntportSocket) : outcome ntportSocket :=
  match bl n with
  | [] => Done n
  | b0 :: rest =>
      match Chan.send b0 (r n) with
      | Chan.Sent c => Done (set_bl rest (set_r c n))
      | Chan.SendBlock => Done n
      | Chan.SendPanic => Panicked
      end
  end.

(** [Close]: the action of the [sync.Once] closes the channel [close]. *)
Definition Close (n : ntportSocket) : outcome (ntportSocket * option error) :=
  if once n then Done (n, None)
  else match Chan.close (close n) with
       | Some c => Done (set_close c (set_once true n), None)
       | None => Panicked
       end.

Section json.
(** [transport.Message] and the two functions of [encoding/json] at that
    type. [json_Marshal v] encodes the pointer [v] ([None] is the nil
    pointer). [json_Unmarshal data p] decodes into a pointer variable
    whose pointee is [p] ([None] when the variable holds nil) and gives
    the pointee afterwards ([None] when the variable was set to nil by a
    JSON null) and the error. *)
Variable Message : Type.
Variable json_Marshal : option Message → string + error.
Variable json_Unmarshal : string → option Message → option Message * option error.

(** [json.Unmarshal(r.Data, &m)] for a non-nil [m] whose pointee is [cur]:
    the caller's message afterwards, and the error. *)
Definition decode_into (data : string) (cur : Message) : Message * option error :=
  let '(p, err) := json_Unmarshal data (Some cur) in (default cur p, err).

(** [Recv]: [out] is the pointee of the argument, [None] for a nil
    argument; the result holds the socket and the pointee afterwards. *)
Definition Recv (out : option Message) (n : ntportSocket)
  : outcome (ntportSocket * option Message * option error) :=
  match out with
  | None => Done (n, None, Some (ErrorString "message passed in is nil"))
  | Some cur =>
      match Chan.recv (r n) with
      | Chan.RecvBlock => Blocked
      | Chan.RecvClosed => Done (n, out, Some EOF)
      | Chan.Received fr c =>
          n' ← handoff (set_r c n);
          let '(v, err) := decode_into (Data fr) cur in
          Done (n', Some v, err)
      end
  end.

(** [Send] *)
Definition Send (v : option Message) (n : ntportSocket) (w : Bus.World)
  : option error * Bus.World :=
  match json_Marshal v with
  | inr err => (Some err, w)
  | inl b => Bus.Publish (conn n) (Reply (m n)) b w
  end.

End json.

End Socket.

(** ** The listener *)

Module Listener.

Definition loc := nat.

(** [ntportListener]; the registry [so] holds pointers to sockets. *)
Record ntportListener := mk {
  conn : Conn;
  addr : string;
  exit : Chan.chan bool;
  so : gmap string loc
}.

Definition set_so (x : gmap string loc) (n : ntportListener) : ntportListener :=
  mk (conn n) (addr n) (exit n) x.
Definition set_exit (c : Chan.chan bool) (n : ntportListener) : ntportListener :=
  mk (conn n) (addr n) c (so n).

(** The listener with what its goroutines share: the sockets it has
    allocated, the clean-up goroutines still parked on [<-sock.close]
    ([watchers]) and the sockets on which the handler was started, in the
    order of the calls [fn(sock)] ([handled]). *)
Record State := mkState {
  lis : ntportListener;
  heap : gmap loc Socket.ntportSocket;
  watchers : gset loc;
  handled : list loc
}.

Definition set_heap (h : gmap loc Socket.ntportSocket) (st : State) : State :=
  mkState (lis st) h (watchers st) (handled st).

(** [Addr] *)
Definition Addr (n : ntportListener) : string := addr n.

(** [Close]: [n.exit <- true], then the connection is closed. *)
Definition Close (n : ntportListener) (w : Bus.World)
  : outcome (ntportListener * option error) * Bus.World :=
  match Chan.send true (exit n) with
  | Chan.Sent c => (Done (set_exit c n, None), Bus.Close (conn n) w)
  | Chan.SendBlock => (Blocked, w)
  | Chan.SendPanic => (Panicked, w)
  end.

(** [Accept], the subscription of its first statement. *)
Definition Accept_subscribe (n : ntportListener) (w : Bus.World)
  : (string + error) * Bus.World :=
  Bus.SubscribeSync (conn n) (addr n) w.

(** [Accept], the goroutine of lines 141 to 144: it waits on [exit] and
    releases the subscription; its result is what it stores in [lerr]. *)
Definition exit_watch (sub : string) (n : ntportListener) (w : Bus.World)
  : outcome (ntportListener * option error) * Bus.World :=
  match Chan.recv (exit n) with
  | Chan.Received _ c => (Done (set_exit c n, (Bus.Unsubscribe sub w).1), (Bus.Unsubscribe sub w).2)
  | Chan.RecvClosed => (Done (n, (Bus.Unsubscribe sub w).1), (Bus.Unsubscribe sub w).2)
  | Chan.RecvBlock => (Blocked, w)
  end.

(** [Accept], lines 154 to 187 of the loop body: the socket of the frame,
    made and registered when its subject is new; the handler and the
    clean-up goroutine are started for a new socket. *)
Definition lookup_or_create (fr : Msg) (st : State) : loc * State :=
  match so (lis st) !! Reply fr with
  | Some l => (l, st)
  | None =>
      let l := fresh (dom (heap st)) in
      let sock := Socket.mk (conn (lis st)) fr (Chan.make 1) false (Chan.make 0) [] in
      (l, mkState (set_so (<[Reply fr := l]> (so (lis st))) (lis st))
                  (<[l := sock]> (heap st))
                  ({[l]} ∪ watchers st)
                  (handled st ++ [l]))
  end.

(** [Accept], lines 189 to 202: nothing is done for a closed socket,
    otherwise the frame is appended to the backlog and the head of the
    backlog is offered to the channel. *)
Definition deliver (l : loc) (fr : Msg) (st : State) : outcome State :=
  match heap st !! l with
  | None => Panicked
  | Some sock =>
      match Chan.recv (Socket.close sock) with
      | Chan.Received _ c => Done (set_heap (<[l := Socket.set_close c sock]> (heap st)) st)
      | Chan.RecvClosed => Done st
      | Chan.RecvBlock =>
          sock' ← Socket.handoff (Socket.set_bl (Socket.bl sock ++ [fr]) sock);
          Done (set_heap (<[l := sock']> (heap st)) st)
      end
  end.

(** The loop body for a frame. *)
Definition dispatch (fr : Msg) (st : State) : outcome State :=
  let '(l, st1) := lookup_or_create fr st in deliver l fr st1.

(** The two parts of [deliver] between which other goroutines run: the
    [select] on [sock.close] of lines 189 to 193, which holds no lock (the
    result is [true] when the loop continues with the next frame), and the
    section of lines 195 to 202 under the lock of the socket. *)
Definition closed_check (l : loc) (st : State) : outcome (State * bool) :=
  match heap st !! l with
  | None => Panicked
  | Some sock =>
      match Chan.recv (Socket.close sock) with
      | Chan.Received _ c =>
          Done (set_heap (<[l := Socket.set_close c sock]> (heap st)) st, true)
      | Chan.RecvClosed => Done (st, true)
      | Chan.RecvBlock => Done (st, false)
      end
  end.

Definition enqueue (l : loc) (fr : Msg) (st : State) : outcome State :=
  match heap st !! l with
  | None => Panicked
  | Some sock =>
      sock' ← Socket.handoff (Socket.set_bl (Socket.bl sock ++ [fr]) sock);
      Done (set_heap (<[l := sock']> (heap st)) st)
  end.

(** What the loop has done when its input ends. *)
Inductive loop_result :=
  | Returned (err : error)
  | Polling.

(** One turn of the loop on the result [p] of [s.NextMsg(time.Minute)]. *)
Definition Accept_iter (p : Msg + error) (st : State) : outcome (State * loop_result) :=
  match p with
  | inr err =>
      if bool_decide (err = ErrTimeout) then Done (st, Polling)
      else Done (st, Returned err)
  | inl fr => st' ← dispatch fr st; Done (st', Polling)
  end.

(** The loop over the successive results of [s.NextMsg]. *)
Fixpoint Accept_loop (polls : list (Msg + error)) (st : State)
  : outcome (State * loop_result) :=
  match polls with
  | [] => Done (st, Polling)
  | p :: rest =>
      x ← Accept_iter p st;
      match snd x with
      | Returned err => Done x
      | Polling => Accept_loop rest (fst x)
      end
  end.

(** One turn of the loop with the poll made on the bus. *)
Definition Accept_poll (sub : string) (st : State) (w : Bus.World)
  : outcome (State * loop_result) * Bus.World :=
  let '(p, w') := Bus.NextMsg sub w in (Accept_iter p st, w').

(** The goroutine of lines 181 to 186 for the socket at [l]. *)
Definition cleanup (l : loc) (st : State) : outcome State :=
  match heap st !! l with
  | None => Panicked
  | Some sock =>
      let forget (h : gmap loc Socket.ntportSocket) :=
        mkState (set_so (delete (Reply (Socket.m sock)) (so (lis st))) (lis st))
                h (watchers st ∖ {[l]}) (handled st) in
      match Chan.recv (Socket.close sock) with
      | Chan.RecvBlock => Blocked
      | Chan.RecvClosed => Done (forget (heap st))
      | Chan.Received _ c => Done (forget (<[l := Socket.set_close c sock]> (heap st)))
      end
  end.

(** [sock.Close()] on the socket at [l], by the handler or by the
    [recover] of line 174. *)
Definition Close_at (l : loc) (st : State) : outcome State :=
  match heap st !! l with
  | None => Panicked
  | Some sock =>
      x ← Socket.Close sock;
      Done (set_heap (<[l := fst x]> (heap st)) st)
  end.

(** The listener [Listen] makes on the connection [c] for the subject [a],
    with no socket and no goroutine yet. *)
Definition init (c : Conn) (a : string) : State :=
  mkState (mk c a (Chan.make 1) ∅) ∅ ∅ [].

End Listener.

(** ** The client *)

Module Client.

(** [ntportClient]; the subscription is named by its subject. *)
Record ntportClient := mk {
  conn : Conn;
  addr : string;
  id : string;
  sub : string
}.

Section json.
Variable Message : Type.
Variable json_Marshal : option Message → string + error.
Variable json_Unmarshal : string → option Message → option Message * option error.

(** [Send] *)
Definition Send (v : option Message) (n : ntportClient) (w : Bus.World)
  : option error * Bus.World :=
  match json_Marshal v with
  | inr err => (Some err, w)
  | inl b => Bus.PublishRequest (conn n) (addr n) (id n) b w
  end.

(** [Recv]: [out] is the pointee of the argument, [None] for a nil
    argument. The frame is decoded into a fresh nil pointer [mr], and
    [*m = *mr] panics when either pointer is nil. *)
Definition Recv (out : option Message) (n : ntportClient) (w : Bus.World)
  : outcome (option Message * option error) * Bus.World :=
  match Bus.NextMsg (sub n) w with
  | (inr err, w') => (Done (out, Some err), w')
  | (inl rsp, w') =>
      match json_Unmarshal (Data rsp) None with
      | (_, Some err) => (Done (out, Some err), w')
      | (Some v, None) =>
          match out with
          | Some _ => (Done (Some v, None), w')
          | None => (Panicked, w')
          end
      | (None, None) => (Panicked, w')
      end
  end.

End json.

(** [Close] *)
Definition Close (n : ntportClient) (w : Bus.World) : option error * Bus.World :=
  (None, Bus.Close (conn n) (snd (Bus.Unsubscribe (sub n) w))).

End Client.

(** ** The transport factory *)

Module Transport.

Section tls.
(** [tls.Config] *)
Variable TLS : Type.

(** [transport.Options], the fields this package reads. *)
Record Options := mkOptions {
  Secure : bool;
  TLSConfig : option TLS
}.

(** [transport.DialOptions] *)
Record DialOptions := mkDialOptions { Timeout : Z }.

(** [nats.Options], the fields this package writes. *)
Record NatsOptions := mkNatsOptions {
  nServers : list string;
  nSecure : bool;
  nTLSConfig : option TLS;
  nTimeout : Z
}.

(** [ntport] *)
Record ntport := mk {
  addrs : list string;
  opts : Options
}.

(** Constants and functions of the packages [nats] and [transport]:
    [nats.DefaultURL], [nats.DefaultOptions],
    [transport.DefaultDialTimeout], the result of [opts.Connect()] and
    the names given by [nats.NewInbox]. *)
Variable DefaultURL : string.
Variable DefaultOptions : NatsOptions.
Variable DefaultDialTimeout : Z.
Variable Connect : NatsOptions → Conn + error.
Variable inbox_name : nat → string.

(** The body of the loop of [NewTransport] over [addrs]. *)
Definition add_addr (cAddrs : list string) (a : string) : list string :=
  if bool_decide (String.length a = 0) then cAddrs
  else
    let a' := if String.prefix "nats://" a then a else "nats://" +:+ a in
    cAddrs ++ [a'].

(** [NewTransport]; the zero value of [transport.Options] is the start of
    the options. *)
Definition NewTransport (addrs : list string) (os : list (Options → Options)) : ntport :=
  let options := fold_left (λ o f, f o) os (mkOptions false None) in
  let cAddrs := fold_left add_addr addrs [] in
  let cAddrs := if bool_decide (length cAddrs = 0) then [DefaultURL] else cAddrs in
  mk cAddrs options.

(** The options [Dial] and [Listen] connect with; [Listen] leaves the
    timeout of [nats.DefaultOptions]. *)
Definition connect_options (n : ntport) (timeout : Z) : NatsOptions :=
  let o := mkNatsOptions (addrs n) (Secure (opts n)) (TLSConfig (opts n)) timeout in
  match TLSConfig (opts n) with
  | Some _ => mkNatsOptions (nServers o) true (nTLSConfig o) (nTimeout o)
  | None => o
  end.

(** [Dial] *)
Definition Dial (n : ntport) (addr : string) (dialOpts : list (DialOptions → DialOptions))
    (w : Bus.World) : (Client.ntportClient + error) * Bus.World :=
  let dopts := fold_left (λ o f, f o) dialOpts (mkDialOptions DefaultDialTimeout) in
  match Connect (connect_options n (Timeout dopts)) with
  | inr err => (inr err, w)
  | inl c =>
      let '(id, w1) := Bus.NewInbox inbox_name w in
      match Bus.SubscribeSync c id w1 with
      | (inr err, w2) => (inr err, w2)
      | (inl sub, w2) => (inl (Client.mk c addr id sub), w2)
      end
  end.

(** [Listen]; the listen options are not read. *)
Definition Listen (n : ntport) (addr : string) (w : Bus.World)
  : (Listener.ntportListener + error) * Bus.World :=
  match Connect (connect_options n (nTimeout DefaultOptions)) with
  | inr err => (inr err, w)
  | inl c =>
      let '(inbox, w1) := Bus.NewInbox inbox_name w in
      (inl (Listener.mk c inbox (Chan.make 1) ∅), w1)
  end.

(** [String] *)
Definition String (n : ntport) : string := "nats".

End tls.

End Transport.

(** ** The goroutines of a listener as a transition system *)

Module System.
Import Listener.

(** Where the accept loop is in its turn: before the next poll, after the
    lookup (and registration) of the socket of a frame, or after the check
    that found the socket open and before the frame is put in its backlog. *)
Inductive accept_pc :=
  | Idle
  | Found (l : loc) (fr : Msg)
  | Checked (l : loc) (fr : Msg).

(** The frame the accept loop is about to put in the backlog of the socket
    at [l]. *)
Definition inflight (l : loc) (pc : accept_pc) : list Msg :=
  match pc with
  | Checked l' fr => if decide (l' = l) then [fr] else []
  | _ => []
  end.

Section json.
Variable Message : Type.
Variable json_Unmarshal : string → option Message → option Message * option error.

(** A handler calls [Recv] on the socket at [l]. *)
Definition Recv_at (l : loc) (out : option Message) (st : State)
  : outcome (State * option Message * option error) :=
  match heap st !! l with
  | None => Panicked
  | Some sock =>
      x ← Socket.Recv Message json_Unmarshal out sock;
      Done (set_heap (<[l := x.1.1]> (heap st)) st, x.1.2, x.2)
  end.

(** The atomic steps. The accept loop takes a frame and looks its socket up
    (making it for a new subject), then checks whether the socket is closed,
    then puts the frame in the backlog; between these, a handler receives on
    or closes its socket (a handler that panics closes it too) and a clean-up
    goroutine that is still parked runs. *)
Inductive step : State * accept_pc → State * accept_pc → Prop :=
  | step_lookup fr st l st' :
      lookup_or_create fr st = (l, st') → step (st, Idle) (st', Found l fr)
  | step_check_closed l fr st st' :
      closed_check l st = Done (st', true) → step (st, Found l fr) (st', Idle)
  | step_check_open l fr st st' :
      closed_check l st = Done (st', false) → step (st, Found l fr) (st', Checked l fr)
  | step_enqueue l fr st st' :
      enqueue l fr st = Done st' → step (st, Checked l fr) (st', Idle)
  | step_recv l out st st' out' err pc :
      Recv_at l out st = Done (st', out', err) → step (st, pc) (st', pc)
  | step_close l st st' pc :
      Close_at l st = Done st' → step (st, pc) (st', pc)
  | step_cleanup l st st' pc :
      l ∈ watchers st → cleanup l st = Done st' → step (st, pc) (st', pc).

(** The states a listener gets to from the one [Listen] returns, the
    accept loop being anywhere in its turn. *)
Definition reachable (c : Conn) (a : string) (st : State) : Prop :=
  ∃ pc, rtc step (init c a, Idle) (st, pc).

(** [outs] are the messages passed to successive calls of [Recv]; the
    result lists what each call left in its message and returned. *)
Fixpoint Recv_seq (outs : list Message) (n : Socket.ntportSocket)
  : outcome (Socket.ntportSocket * list (Message * option error)) :=
  match outs with
  | [] => Done (n, [])
  | out :: rest =>
      x ← Socket.Recv Message json_Unmarshal (Some out) n;
      y ← Recv_seq rest x.1.1;
      Done (y.1, (default out x.1.2, x.2) :: y.2)
  end.

End json.

(** The frames a socket holds for its receiver, oldest first. *)
Definition pending (n : Socket.ntportSocket) : list Msg :=
  Chan.buf (Socket.r n) ++ Socket.bl n.

Definition is_open (n : Socket.ntportSocket) : Prop :=
  Chan.closed (Socket.close n) = false.

(** The shape every socket of a listener keeps. *)
Record sock_ok (n : Socket.ntportSocket) : Prop := {
  ok_cap : Chan.cap (Socket.r n) = 1;
  ok_r_open : Chan.closed (Socket.r n) = false;
  ok_r_len : (length (Chan.buf (Socket.r n)) ≤ 1)%nat;
  ok_bl : Chan.buf (Socket.r n) = [] → Socket.bl n = [];
  ok_close_buf : Chan.buf (Socket.close n) = [];
  ok_once : Socket.once n = Chan.closed (Socket.close n)
}.

(** The registry, the store and the parked clean-up goroutines agree. *)
Record Inv (st : State) : Prop := {
  inv_so : ∀ k l, so (lis st) !! k = Some l →
             ∃ s, heap st !! l = Some s ∧ Reply (Socket.m s) = k ∧ l ∈ watchers st;
  inv_watch : ∀ l, l ∈ watchers st →
             ∃ s, heap st !! l = Some s ∧ so (lis st) !! Reply (Socket.m s) = Some l;
  inv_heap : ∀ l s, heap st !! l = Some s →
             sock_ok s ∧ (is_open s → l ∈ watchers st)
}.

(** The listener and its sockets use the connection [c]. *)
Definition conn_ok (c : Conn) (st : State) : Prop :=
  conn (lis st) = c ∧ ∀ l s, heap st !! l = Some s → Socket.conn s = c.

(** The session of subject [k] holds the frames [ps]: no socket yet and no
    frame, or an open socket with these frames pending. *)
Definition session_pending (st : State) (k : string) (ps : list Msg) : Prop :=
  (so (lis st) !! k = None ∧ ps = []) ∨
  (∃ l s, so (lis st) !! k = Some l ∧ heap st !! l = Some s ∧
          sock_ok s ∧ is_open s ∧ pending s = ps).

(** [k] calls of [Close] in a row: the socket afterwards, the results, and
    how many of the calls closed the channel [close]. *)
Fixpoint Close_times (k : nat) (n : Socket.ntportSocket)
  : outcome (Socket.ntportSocket * list (option error) * nat) :=
  match k with
  | 0 => Done (n, [], 0)
  | S k' =>
      x ← Socket.Close n;
      y ← Close_times k' x.1;
      let fired := if negb (Chan.closed (Socket.close n)) && Chan.closed (Socket.close x.1)
                   then 1 else 0 in
      Done (y.1.1, x.2 :: y.1.2, fired + y.2)
  end.

(** The first result of the poll that is an error other than a timeout. *)
Fixpoint first_error (polls : list (Msg + error)) : option error :=
  match polls with
  | [] => None
  | inl _ :: rest => first_error rest
  | inr err :: rest => if bool_decide (err = ErrTimeout) then first_error rest else Some err
  end.

(** The frames of the poll before that error. *)
Fixpoint frames_before_error (polls : list (Msg + error)) : list Msg :=
  match polls with
  | [] => []
  | inl fr :: rest => fr :: frames_before_error rest
  | inr err :: rest => if bool_decide (err = ErrTimeout) then frames_before_error rest else []
  end.

End System.

(** ** Address normalisation, as the specification words it *)

Module AddrSpec.

Definition canonical (a : string) : string :=
  if String.prefix "nats://" a then a else "nats://" +:+ a.

Definition normalize (addrs : list string) : list string :=
  canonical <$> filter (λ a, a ≠ "") addrs.

End AddrSpec.

(** ** A small run: one client, one listener *)

Module Run.
Import Listener System.

(** A message is its own encoding. *)
Definition encode (v : option string) : string + error := inl (default "null" v).
Definition decode (data : string) (p : option string) : option string * option error :=
  (Some data, None).

Definition get {A} (d : A) (x : outcome A) : A :=
  match x with Done a => a | _ => d end.

Definition ping : Msg := mkMsg "srv" "_INBOX.1" "ping".
Definition ping2 : Msg := mkMsg "srv" "_INBOX.1" "ping again".
Definition ping3 : Msg := mkMsg "srv" "_INBOX.1" "and again".

Definition st0 : State := init 0 "srv".
(** a first frame has made the socket at location 0 *)
Definition st1 : State := get st0 (dispatch ping st0).
(** the handler has closed it; the clean-up goroutine has not run yet *)
Definition st2 : State := get st1 (Close_at 0 st1).

Definition inbox (n : nat) : string := "_INBOX." +:+ pretty n.

Definition transport : Transport.ntport unit :=
  Transport.NewTransport unit "nats://localhost:4222" ["127.0.0.1:4222"] [].

Definition world : Bus.World :=
  Bus.mkWorld (<["srv" := (0, [])]> (<["_INBOX.1" := (1, [])]> ∅)) ∅ 2.

Definition client : Client.ntportClient := Client.mk 1 "srv" "_INBOX.1" "_INBOX.1".

(** a frame of another session, and a frame that does not decode *)
Definition other : Msg := mkMsg "srv" "_INBOX.7" "hello".
Definition bad : Msg := mkMsg "srv" "_INBOX.1" "{".

(** a decoder that keeps what its target held: into a target that holds a
    message the data is put behind it *)
Definition decode_keep (data : string) (p : option string) : option string * option error :=
  match p with
  | None => (Some data, None)
  | Some cur => (Some (cur +:+ data), None)
  end.

(** a decoder that refuses ["{"] *)
Definition decode_strict (data : string) (p : option string) : option string * option error :=
  if bool_decide (data = "{") then (p, Some (ErrJSON "unexpected end of JSON input"))
  else (Some data, None).

(** a decoder for which ["null"] is the nil pointer *)
Definition decode_null (data : string) (p : option string) : option string * option error :=
  if bool_decide (data = "null") then (None, None) else (Some data, None).

(** the second frame had passed the check before the handler closed the
    socket, and is put in the backlog of the closed socket *)
Definition st2_late : State := get st2 (enqueue 0 ping2 st2).

(** three frames are pending, the first one does not decode *)
Definition st3 : State :=
  (get (st0, Polling) (Accept_loop (inl <$> [bad; ping; ping2]) st0)).1.

Definition empty_world : Bus.World := Bus.mkWorld ∅ ∅ 0.

End Run.

(** * Properties *)

(** ** Sockets on their own *)

Section socket_facts.
Import System.
Variable Message : Type.
Variable json_Unmarshal : string → option Message → option Message * option error.

Abbreviation Recv := (Socket.Recv Message json_Unmarshal).
Abbreviation decode_into := (Socket.decode_into Message json_Unmarshal).

Lemma handoff_ok (s : Socket.ntportSocket) :
  Chan.cap (Socket.r s) = 1 →
  Chan.closed (Socket.r s) = false →
  (length (Chan.buf (Socket.r s)) ≤ 1)%nat →
  Chan.buf (Socket.close s) = [] →
  Socket.once s = Chan.closed (Socket.close s) →
  ∃ s', Socket.handoff s = Done s' ∧ sock_ok s' ∧ pending s' = pending s ∧
        Socket.close s' = Socket.close s ∧ Socket.m s' = Socket.m s ∧
        Socket.conn s' = Socket.conn s.
Proof.
  destruct s as [c fr [cp bf cl] o cls b]; simpl.
  intros -> -> Hlen Hcb Ho.
  unfold Socket.handoff, Chan.send, pending; simpl.
  destruct b as [|b0 rest].
  - eexists; split; [reflexivity|].
    split; [constructor; simpl; auto|]. simpl; auto.
  - destruct bf as [|x [|y bf]]; simpl in *; [| |lia].
    + eexists; split; [reflexivity|].
      split; [constructor; simpl; auto; discriminate|]. simpl; auto.
    + eexists; split; [reflexivity|].
      split; [constructor; simpl; auto; discriminate|]. simpl; auto.
Qed.

Lemma new_socket_ok (c : Conn) (fr : Msg) :
  sock_ok (Socket.mk c fr (Chan.make 1) false (Chan.make 0) []) ∧
  is_open (Socket.mk c fr (Chan.make 1) false (Chan.make 0) []) ∧
  pending (Socket.mk c fr (Chan.make 1) false (Chan.make 0) []) = [].
Proof. split; [constructor; simpl; auto|]. split; reflexivity. Qed.

(** Appending a frame and offering the head of the backlog, as the accept
    loop does, adds the frame at the end of what is pending. *)
Lemma enqueue_ok (s : Socket.ntportSocket) (fr : Msg) :
  sock_ok s →
  ∃ s', Socket.handoff (Socket.set_bl (Socket.bl s ++ [fr]) s) = Done s' ∧
        sock_ok s' ∧ pending s' = pending s ++ [fr] ∧
        Socket.close s' = Socket.close s ∧ Socket.m s' = Socket.m s.
Proof.
  intros [H1 H2 H3 H4 H5 H6].
  destruct (handoff_ok (Socket.set_bl (Socket.bl s ++ [fr]) s))
    as (s' & E & Hok & Hp & Hc & Hm & _); auto.
  exists s'. split; [done|]. split; [done|]. split; [|done].
  rewrite Hp. unfold pending; simpl. by rewrite app_assoc.
Qed.

Lemma Recv_nil (s : Socket.ntportSocket) :
  Recv None s = Done (s, None, Some (ErrorString "message passed in is nil")).
Proof. reflexivity. Qed.

Lemma Recv_empty (s : Socket.ntportSocket) (out : Message) :
  Chan.buf (Socket.r s) = [] →
  Chan.closed (Socket.r s) = false →
  Recv (Some out) s = Blocked.
Proof. intros Hb Hc. unfold Socket.Recv, Chan.recv. by rewrite Hb, Hc. Qed.

(** A receive takes the oldest pending frame. *)
Lemma Recv_head (s : Socket.ntportSocket) (out : Message) (fr : Msg) (ps : list Msg) :
  sock_ok s →
  pending s = fr :: ps →
  ∃ s', Recv (Some out) s =
          Done (s', Some (decode_into (Data fr) out).1, (decode_into (Data fr) out).2) ∧
        sock_ok s' ∧ pending s' = ps ∧
        Socket.close s' = Socket.close s ∧ Socket.m s' = Socket.m s.
Proof.
  intros [H1 H2 H3 H4 H5 H6] Hp.
  destruct s as [c f0 [cp bf cl] o cls b]; simpl in *; subst.
  unfold pending in Hp; simpl in Hp.
  destruct bf as [|x [|y bf]]; simpl in *; [|  |lia].
  { rewrite H4 in Hp by done. discriminate. }
  injection Hp as -> ->.
  destruct (handoff_ok (Socket.mk c f0 (Chan.mk 1 [] false) (Chan.closed cls) cls ps))
    as (s' & E & Hok & Hp' & Hc & Hm & _); simpl; auto.
  exists s'. unfold Socket.Recv, Chan.recv; simpl.
  unfold Socket.set_r; simpl. rewrite E; simpl.
  destruct (decode_into (Data fr) out) as [v err]; simpl.
  split; [done|]. split; [done|]. auto.
Qed.

Lemma Recv_keeps (s s' : Socket.ntportSocket) (out out' : option Message) (err : option error) :
  sock_ok s →
  Recv out s = Done (s', out', err) →
  sock_ok s' ∧ Socket.close s' = Socket.close s ∧ Socket.m s' = Socket.m s.
Proof.
  intros Hok E. destruct out as [out|].
  - destruct (pending s) as [|fr ps] eqn:Hp.
    + unfold pending in Hp. apply app_eq_nil in Hp as [Hb _].
      rewrite Recv_empty in E; [discriminate|done|apply Hok].
    + destruct (Recv_head s out fr ps Hok Hp) as (s1 & E1 & ? & ? & ? & ?).
      rewrite E1 in E. injection E as <- _ _. auto.
  - rewrite Recv_nil in E. injection E as <- _ _. auto.
Qed.

Lemma Close_ok (s : Socket.ntportSocket) :
  sock_ok s →
  ∃ s', Socket.Close s = Done (s', None) ∧ sock_ok s' ∧
        Chan.closed (Socket.close s') = true ∧ Socket.m s' = Socket.m s ∧
        Socket.r s' = Socket.r s ∧ Socket.bl s' = Socket.bl s ∧
        (Chan.closed (Socket.close s) = true → s' = s).
Proof.
  intros [H1 H2 H3 H4 H5 H6].
  destruct s as [c f0 rr o [cp bf cl] b]; simpl in *; subst.
  unfold Socket.Close, Chan.close; simpl.
  destruct cl; simpl.
  - eexists; split; [reflexivity|]. split; [constructor; simpl; auto|]. auto.
  - eexists; split; [reflexivity|]. split; [constructor; simpl; auto|].
    repeat split; auto. discriminate.
Qed.

End socket_facts.

(** ** The listener: what every reachable state satisfies *)

Section listener_facts.
Import Listener System.
Variable Message : Type.
Variable json_Unmarshal : string → option Message → option Message * option error.

Abbreviation step' := (step Message json_Unmarshal).
Abbreviation reachable' := (reachable Message json_Unmarshal).

Lemma init_inv (c : Conn) (a : string) : Inv (init c a).
Proof.
  constructor; simpl.
  - intros k l. rewrite lookup_empty. discriminate.
  - intros l Hl. by apply not_elem_of_empty in Hl.
  - intros l s. rewrite lookup_empty. discriminate.
Qed.

(** Replacing a socket by one of the same session that is in shape, and
    closed if the old one was, keeps the invariant. *)
Lemma update_inv (st : State) (l : loc) (s s' : Socket.ntportSocket) :
  Inv st →
  heap st !! l = Some s →
  sock_ok s' →
  Socket.m s' = Socket.m s →
  (is_open s' → is_open s) →
  Inv (set_heap (<[l := s']> (heap st)) st).
Proof.
  intros [Hso Hw Hh] Hl Hok Hm Hopen. constructor; simpl.
  - intros k l' Hk. destruct (Hso k l' Hk) as (s0 & Hs0 & Hr & Hin).
    destruct (decide (l = l')) as [<-|Hne].
    + exists s'. rewrite lookup_insert_eq. split; [done|]. split; [|done]. congruence.
    + exists s0. by rewrite lookup_insert_ne.
  - intros l' Hin. destruct (Hw l' Hin) as (s0 & Hs0 & Hr).
    destruct (decide (l = l')) as [<-|Hne].
    + exists s'. rewrite lookup_insert_eq. split; [done|]. congruence.
    + exists s0. by rewrite lookup_insert_ne.
  - intros l' s0. destruct (decide (l = l')) as [<-|Hne].
    + rewrite lookup_insert_eq. intros [= <-]. split; [done|].
      intros Ho. by apply (Hh l s Hl), Hopen.
    + rewrite lookup_insert_ne by done. apply Hh.
Qed.

Lemma deliver_closed (st : State) (l : loc) (s : Socket.ntportSocket) (fr : Msg) :
  heap st !! l = Some s →
  sock_ok s →
  Chan.closed (Socket.close s) = true →
  deliver l fr st = Done st.
Proof.
  intros Hl Hok Hc. unfold deliver, Chan.recv. rewrite Hl.
  by rewrite (ok_close_buf _ Hok), Hc.
Qed.

Lemma deliver_open (st : State) (l : loc) (s : Socket.ntportSocket) (fr : Msg) :
  heap st !! l = Some s →
  sock_ok s →
  is_open s →
  ∃ s', deliver l fr st = Done (set_heap (<[l := s']> (heap st)) st) ∧
        sock_ok s' ∧ pending s' = pending s ++ [fr] ∧
        Socket.close s' = Socket.close s ∧ Socket.m s' = Socket.m s.
Proof.
  intros Hl Hok Ho. destruct (enqueue_ok s fr Hok) as (s' & E & Hok' & Hp & Hc & Hm).
  exists s'. split; [|done].
  unfold deliver, Chan.recv. rewrite Hl, (ok_close_buf _ Hok), Ho.
  by rewrite E.
Qed.

Lemma deliver_inv (st : State) (l : loc) (fr : Msg) :
  Inv st → is_Some (heap st !! l) →
  ∃ st', deliver l fr st = Done st' ∧ Inv st'.
Proof.
  intros HI [s Hl].
  pose proof (proj1 (inv_heap _ HI l s Hl)) as Hok.
  destruct (Chan.closed (Socket.close s)) eqn:Hc.
  - exists st. split; [|done]. by eapply deliver_closed.
  - destruct (deliver_open st l s fr Hl Hok Hc) as (s' & Ed & Hok' & _ & Hcl & Hm).
    eexists; split; [exact Ed|].
    apply (update_inv st l s s'); auto.
Qed.

(** A frame with a new subject: the socket is made at a new location,
    registered under the subject, and watched. *)
Lemma create_inv (st : State) (fr : Msg) :
  Inv st →
  so (lis st) !! Reply fr = None →
  ∃ st1, lookup_or_create fr st = (fresh (dom (heap st)), st1) ∧ Inv st1 ∧
         heap st !! fresh (dom (heap st)) = None ∧
         so (lis st1) = <[Reply fr := fresh (dom (heap st))]> (so (lis st)) ∧
         heap st1 = <[fresh (dom (heap st)) :=
                        Socket.mk (conn (lis st)) fr (Chan.make 1) false (Chan.make 0) []]>
                      (heap st).
Proof.
  intros [Hso Hw Hh] Hk. unfold lookup_or_create. rewrite Hk.
  set (l := fresh (dom (heap st))).
  assert (Hfresh : heap st !! l = None).
  { apply not_elem_of_dom. apply is_fresh. }
  eexists; split; [reflexivity|]. split; [|by simpl].
  destruct (new_socket_ok (conn (lis st)) fr) as (Hok & Hop & _).
  constructor; simpl.
  - intros k l'. destruct (decide (Reply fr = k)) as [<-|Hne].
    + rewrite lookup_insert_eq. intros [= <-].
      eexists. rewrite lookup_insert_eq. split; [done|]. split; [done|].
      by apply elem_of_union_l, elem_of_singleton.
    + rewrite lookup_insert_ne by done. intros Hk'.
      destruct (Hso k l' Hk') as (s0 & Hs0 & Hr & Hin).
      exists s0. rewrite lookup_insert_ne by congruence. split; [done|]. split; [done|].
      by apply elem_of_union_r.
  - intros l' Hin. destruct (decide (l = l')) as [<-|Hne].
    + eexists. rewrite lookup_insert_eq. split; [done|]. simpl. by rewrite lookup_insert_eq.
    + assert (Hin' : l' ∈ watchers st).
      { apply elem_of_union in Hin as [Hin%elem_of_singleton|Hin]; [congruence|done]. }
      destruct (Hw l' Hin') as (s0 & Hs0 & Hr).
      exists s0. rewrite lookup_insert_ne by done. split; [done|].
      rewrite lookup_insert_ne; [done|]. intros Heq. congruence.
  - intros l' s0. destruct (decide (l = l')) as [<-|Hne].
    + rewrite lookup_insert_eq. intros [= <-]. split; [done|].
      intros _. by apply elem_of_union_l, elem_of_singleton.
    + rewrite lookup_insert_ne by done. intros Hs0.
      destruct (Hh l' s0 Hs0) as [? Hin]. split; [done|].
      intros Ho. by apply elem_of_union_r, Hin.
Qed.

Lemma dispatch_inv (st : State) (fr : Msg) :
  Inv st → ∃ st', dispatch fr st = Done st' ∧ Inv st'.
Proof.
  intros HI. unfold dispatch.
  destruct (so (lis st) !! Reply fr) as [l|] eqn:Hk.
  - unfold lookup_or_create. rewrite Hk.
    destruct (inv_so _ HI _ _ Hk) as (s & Hs & _).
    apply deliver_inv; eauto.
  - destruct (create_inv st fr HI Hk) as (st1 & E & HI1 & _ & _ & Hh).
    rewrite E. apply deliver_inv; [done|].
    rewrite Hh, lookup_insert_eq. eauto.
Qed.

Lemma Recv_at_inv (st st' : State) (l : loc) (out out' : option Message) (err : option error) :
  Inv st →
  Recv_at Message json_Unmarshal l out st = Done (st', out', err) →
  Inv st'.
Proof.
  intros HI. unfold Recv_at.
  destruct (heap st !! l) as [s|] eqn:Hl; [|discriminate].
  destruct (Socket.Recv Message json_Unmarshal out s) as [[[s1 o1] e1]| |] eqn:E;
    simpl; [|discriminate..].
  intros [= <- _ _].
  destruct (Recv_keeps _ _ _ _ _ _ _ (proj1 (inv_heap _ HI l s Hl)) E) as (Hok & Hc & Hm).
  apply (update_inv st l s s1); auto; unfold is_open; congruence.
Qed.

Lemma Close_at_inv (st : State) (l : loc) :
  Inv st → is_Some (heap st !! l) →
  ∃ st', Close_at l st = Done st' ∧ Inv st'.
Proof.
  intros HI [s Hl]. unfold Close_at. rewrite Hl.
  destruct (Close_ok s (proj1 (inv_heap _ HI l s Hl))) as (s' & E & Hok & Hc & Hm & _).
  rewrite E; simpl. eexists; split; [reflexivity|].
  apply (update_inv st l s s'); auto; unfold is_open; congruence.
Qed.

Lemma cleanup_inv (st st' : State) (l : loc) :
  Inv st → l ∈ watchers st →
  cleanup l st = Done st' →
  Inv st' ∧
  ∃ s, heap st !! l = Some s ∧ Chan.closed (Socket.close s) = true ∧
       st' = mkState (set_so (delete (Reply (Socket.m s)) (so (lis st))) (lis st))
                     (heap st) (watchers st ∖ {[l]}) (handled st).
Proof.
  intros HI Hin. unfold cleanup.
  destruct (inv_watch _ HI l Hin) as (s & Hl & Hk). rewrite Hl.
  pose proof (proj1 (inv_heap _ HI l s Hl)) as Hok.
  unfold Chan.recv. rewrite (ok_close_buf _ Hok).
  destruct (Chan.closed (Socket.close s)) eqn:Hc; [|discriminate].
  intros [= <-]. split; [|eauto].
  destruct HI as [Hso Hw Hh]. constructor; simpl.
  - intros k l'. destruct (decide (Reply (Socket.m s) = k)) as [<-|Hne].
    + rewrite lookup_delete_eq. discriminate.
    + rewrite lookup_delete_ne by done. intros Hk'.
      destruct (Hso k l' Hk') as (s0 & Hs0 & Hr & Hin').
      exists s0. split; [done|]. split; [done|].
      assert (l' ≠ l) by (intros ->; congruence).
      apply elem_of_difference. split; [done|]. by rewrite elem_of_singleton.
  - intros l' Hin'. apply elem_of_difference in Hin' as [Hin'' Hne].
    rewrite elem_of_singleton in Hne.
    destruct (Hw l' Hin'') as (s0 & Hs0 & Hr).
    exists s0. split; [done|]. rewrite lookup_delete_ne; [done|].
    intros Heq. rewrite <- Heq in Hr. congruence.
  - intros l' s0 Hs0. destruct (Hh l' s0 Hs0) as [? Hin']. split; [done|].
    intros Ho. assert (l' ≠ l).
    { intros ->. unfold is_open in Ho. congruence. }
    specialize (Hin' Ho).
    apply elem_of_difference. split; [done|]. by rewrite elem_of_singleton.
Qed.

Lemma lookup_or_create_inv (st st' : State) (fr : Msg) (l : loc) :
  Inv st →
  lookup_or_create fr st = (l, st') →
  Inv st' ∧ is_Some (heap st' !! l).
Proof.
  intros HI E. destruct (so (lis st) !! Reply fr) as [l0|] eqn:Hk.
  - unfold lookup_or_create in E. rewrite Hk in E. injection E as <- <-.
    destruct (inv_so _ HI _ _ Hk) as (s & Hs & _). eauto.
  - destruct (create_inv st fr HI Hk) as (st1 & E1 & HI1 & _ & _ & Hh).
    rewrite E1 in E. injection E as <- <-. split; [done|].
    rewrite Hh, lookup_insert_eq. eauto.
Qed.

(** The check changes nothing and tells whether the socket is closed. *)
Lemma closed_check_inv (st st' : State) (l : loc) (b : bool) :
  Inv st →
  closed_check l st = Done (st', b) →
  st' = st ∧ ∃ s, heap st !! l = Some s ∧ Chan.closed (Socket.close s) = b.
Proof.
  intros HI. unfold closed_check, Chan.recv.
  destruct (heap st !! l) as [s|] eqn:Hl; [|discriminate].
  rewrite (ok_close_buf _ (proj1 (inv_heap _ HI l s Hl))).
  destruct (Chan.closed (Socket.close s)) eqn:Hc; intros [= <- <-]; eauto.
Qed.

(** The frame goes to the end of what is pending, whether the socket is
    still open or not. *)
Lemma enqueue_inv (st st' : State) (l : loc) (fr : Msg) :
  Inv st →
  enqueue l fr st = Done st' →
  Inv st' ∧
  ∃ s s', heap st !! l = Some s ∧ st' = set_heap (<[l := s']> (heap st)) st ∧
          sock_ok s' ∧ pending s' = pending s ++ [fr] ∧
          Socket.close s' = Socket.close s ∧ Socket.m s' = Socket.m s.
Proof.
  intros HI. unfold enqueue.
  destruct (heap st !! l) as [s|] eqn:Hl; [|discriminate].
  destruct (enqueue_ok s fr (proj1 (inv_heap _ HI l s Hl))) as (s' & E & Hok & Hp & Hc & Hm).
  rewrite E. cbn. intros [= <-]. split.
  - apply (update_inv st l s s'); auto. unfold is_open. congruence.
  - exists s, s'. split; [done|]. split; [done|]. split; [done|]. auto.
Qed.

(** [deliver] is the check followed, for an open socket, by the enqueue. *)
Lemma deliver_split (l : loc) (fr : Msg) (st : State) :
  deliver l fr st =
    mbind (λ x : State * bool, if x.2 then Done x.1 else enqueue l fr x.1)
          (closed_check l st).
Proof.
  unfold deliver, closed_check, enqueue.
  destruct (heap st !! l) as [s|] eqn:Hl; [|done].
  destruct (Chan.recv (Socket.close s)); cbn; [done..|]. by rewrite Hl.
Qed.

Lemma step_inv (st st' : State) (pc pc' : accept_pc) :
  step' (st, pc) (st', pc') → Inv st → Inv st'.
Proof.
  intros Hstep HI. inversion Hstep; subst.
  - match goal with H : lookup_or_create _ _ = _ |- _ =>
      apply (lookup_or_create_inv _ _ _ _ HI H) end.
  - match goal with H : closed_check _ _ = _ |- _ =>
      by destruct (closed_check_inv _ _ _ _ HI H) as [-> _] end.
  - match goal with H : closed_check _ _ = _ |- _ =>
      by destruct (closed_check_inv _ _ _ _ HI H) as [-> _] end.
  - match goal with H : enqueue _ _ _ = _ |- _ =>
      apply (enqueue_inv _ _ _ _ HI H) end.
  - match goal with H : Recv_at _ _ _ _ _ = _ |- _ =>
      apply (Recv_at_inv _ _ _ _ _ _ HI H) end.
  - match goal with H : Close_at ?l _ = _ |- _ =>
      unfold Close_at in H; destruct (heap st !! l) as [s|] eqn:Hl; [|discriminate];
      destruct (Close_at_inv st l HI) as (st1 & E1 & HI1); [eauto|];
      unfold Close_at in E1; rewrite Hl in E1; congruence end.
  - match goal with H : cleanup _ _ = _, Hin : _ ∈ watchers _ |- _ =>
      by destruct (cleanup_inv _ _ _ HI Hin H) end.
Qed.

Lemma steps_inv (cfg cfg' : State * accept_pc) :
  rtc step' cfg cfg' → Inv cfg.1 → Inv cfg'.1.
Proof.
  induction 1 as [|[st pc] [st1 pc1] cfg' Hstep _ IH]; [done|].
  intros HI. apply IH. by apply (step_inv st st1 pc pc1).
Qed.

Lemma reachable_inv (c : Conn) (a : string) (st : State) :
  reachable' c a st → Inv st.
Proof.
  intros [pc Hr]. apply (steps_inv _ _ Hr), init_inv.
Qed.

(** A whole turn of the accept loop on a frame is a run of the system. *)
Lemma dispatch_steps (fr : Msg) (st st' : State) :
  dispatch fr st = Done st' → rtc step' (st, Idle) (st', Idle).
Proof.
  unfold dispatch. destruct (lookup_or_create fr st) as [l st1] eqn:E1.
  rewrite deliver_split.
  destruct (closed_check l st1) as [[st2 b]| |] eqn:E2; cbn; [|discriminate..].
  intros E3. eapply rtc_l; [by apply step_lookup|].
  destruct b.
  - injection E3 as <-. by apply rtc_once, step_check_closed.
  - eapply rtc_l; [by apply step_check_open|]. by apply rtc_once, step_enqueue.
Qed.

End listener_facts.

(** ** Sessions: delivery and receipt in order *)

Section session_facts.
Import Listener System.
Variable Message : Type.
Variable json_Unmarshal : string → option Message → option Message * option error.

Abbreviation Recv_seq' := (Recv_seq Message json_Unmarshal).

(** A frame of the session goes to the end of what the session holds; the
    first frame makes the socket. *)
Lemma dispatch_session (st : State) (k : string) (ps : list Msg) (fr : Msg) :
  session_pending st k ps →
  Reply fr = k →
  ∃ st', dispatch fr st = Done st' ∧ session_pending st' k (ps ++ [fr]) ∧
         ∃ l, so (lis st') !! k = Some l.
Proof.
  intros [[Hk ->]|(l & s & Hk & Hl & Hok & Ho & Hp)] <-; unfold dispatch, lookup_or_create;
    rewrite Hk.
  - set (l := fresh (dom (heap st))).
    set (s := Socket.mk (conn (lis st)) fr (Chan.make 1) false (Chan.make 0) []).
    destruct (new_socket_ok (conn (lis st)) fr) as (Hok & Ho & Hp). fold s in Hok, Ho, Hp.
    match goal with |- context [deliver l fr ?x] => set (st1 := x) end.
    assert (Hl : heap st1 !! l = Some s) by apply lookup_insert_eq.
    destruct (deliver_open st1 l s fr Hl Hok Ho) as (s' & E & Hok' & Hp' & Hc & Hm).
    eexists; split; [exact E|]. split.
    + right. exists l, s'. simpl. rewrite !lookup_insert_eq.
      split; [done|]. split; [done|]. split; [done|].
      split; [unfold is_open; by rewrite Hc|]. by rewrite Hp', Hp.
    + exists l. simpl. by rewrite lookup_insert_eq.
  - destruct (deliver_open st l s fr Hl Hok Ho) as (s' & E & Hok' & Hp' & Hc & Hm).
    eexists; split; [exact E|]. split.
    + right. exists l, s'. simpl. rewrite lookup_insert_eq.
      split; [done|]. split; [done|]. split; [done|].
      split; [unfold is_open; by rewrite Hc|]. by rewrite Hp', Hp.
    + by exists l.
Qed.

Lemma Accept_loop_frames (fs : list Msg) (st : State) (k : string) (ps : list Msg) :
  session_pending st k ps →
  Forall (λ fr, Reply fr = k) fs →
  ∃ st', Accept_loop (inl <$> fs) st = Done (st', Polling) ∧
         session_pending st' k (ps ++ fs).
Proof.
  revert st ps. induction fs as [|fr fs IH]; intros st ps Hs Hall; simpl.
  - exists st. by rewrite app_nil_r.
  - apply Forall_cons in Hall as [Hfr Hall].
    destruct (dispatch_session st k ps fr Hs Hfr) as (st1 & E & Hs1 & _).
    rewrite E; simpl.
    destruct (IH st1 (ps ++ [fr]) Hs1 Hall) as (st' & E' & Hs').
    exists st'. split; [done|]. by rewrite <- app_assoc in Hs'.
Qed.

(** Every open registered socket of a reachable state is such a session. *)
Lemma reachable_session (c : Conn) (a : string) (st : State) (k : string) (l : loc)
    (s : Socket.ntportSocket) :
  reachable Message json_Unmarshal c a st →
  so (lis st) !! k = Some l →
  heap st !! l = Some s →
  is_open s →
  session_pending st k (pending s).
Proof.
  intros Hr Hk Hl Ho. right. exists l, s.
  pose proof (reachable_inv Message json_Unmarshal c a st Hr) as HI.
  split; [done|]. split; [done|]. split; [apply (inv_heap _ HI l s Hl)|]. done.
Qed.

(** As many receives as there are pending frames take them all, oldest
    first, and leave the socket empty. *)
Lemma Recv_seq_pending (qs : list Msg) (outs : list Message) (s : Socket.ntportSocket) :
  sock_ok s →
  pending s = qs →
  length outs = length qs →
  ∃ s', Recv_seq' outs s =
          Done (s', zip_with (λ out fr, Socket.decode_into Message json_Unmarshal (Data fr) out)
                             outs qs) ∧
        sock_ok s' ∧ pending s' = [] ∧ Socket.close s' = Socket.close s.
Proof.
  revert outs s. induction qs as [|fr qs IH]; intros [|out outs] s Hok Hp Hlen;
    simpl in Hlen; try discriminate.
  - exists s. simpl. auto.
  - destruct (Recv_head Message json_Unmarshal s out fr qs Hok Hp)
      as (s1 & E & Hok1 & Hp1 & Hc1 & _).
    destruct (IH outs s1 Hok1 Hp1) as (s' & E' & Hok' & Hp' & Hc'); [lia|].
    exists s'. cbn [Recv_seq zip_with]. rewrite E. cbn. rewrite E'. cbn.
    split; [|split; [done|split; [done|congruence]]].
    by destruct (Socket.decode_into Message json_Unmarshal (Data fr) out).
Qed.

End session_facts.

(** ** Close, clean-up and reuse of a subject *)

Section lifecycle_facts.
Import Listener System.
Variable Message : Type.
Variable json_Unmarshal : string → option Message → option Message * option error.

Lemma Close_at_spec (st : State) (l : loc) (s : Socket.ntportSocket) :
  heap st !! l = Some s →
  sock_ok s →
  ∃ s', Close_at l st = Done (set_heap (<[l := s']> (heap st)) st) ∧
        sock_ok s' ∧ Chan.closed (Socket.close s') = true ∧
        Socket.m s' = Socket.m s ∧ Socket.r s' = Socket.r s ∧ Socket.bl s' = Socket.bl s.
Proof.
  intros Hl Hok. destruct (Close_ok s Hok) as (s' & E & Hok' & Hc & Hm & Hr & Hb & _).
  exists s'. unfold Close_at. rewrite Hl, E. cbn.
  split; [done|]. split; [done|]. auto.
Qed.

(** The loop body on a frame whose subject is not in the registry. *)
Lemma dispatch_new (st : State) (fr : Msg) :
  so (lis st) !! Reply fr = None →
  dispatch fr st =
    Done (mkState (set_so (<[Reply fr := fresh (dom (heap st))]> (so (lis st))) (lis st))
                  (<[fresh (dom (heap st)) :=
                       Socket.mk (conn (lis st)) fr (Chan.mk 1 [fr] false) false
                                 (Chan.make 0) []]> (heap st))
                  ({[fresh (dom (heap st))]} ∪ watchers st)
                  (handled st ++ [fresh (dom (heap st))])).
Proof.
  intros Hk. unfold dispatch, lookup_or_create. rewrite Hk.
  unfold deliver; simpl. rewrite lookup_insert_eq. simpl.
  unfold set_heap; simpl. by rewrite insert_insert_eq.
Qed.

Lemma Close_times_ok (k : nat) (s : Socket.ntportSocket) :
  sock_ok s →
  ∃ s', Close_times k s =
          Done (s', replicate k None,
                if Chan.closed (Socket.close s) then 0 else Nat.min 1 k) ∧
        sock_ok s' ∧
        Chan.closed (Socket.close s') = (Chan.closed (Socket.close s) || bool_decide (0 < k)).
Proof.
  revert s. induction k as [|k IH]; intros s Hok.
  - exists s. simpl. split; [by destruct (Chan.closed _)|]. split; [done|].
    by rewrite orb_false_r.
  - destruct (Close_ok s Hok) as (s1 & E & Hok1 & Hc1 & _ & _ & _ & Hsame).
    destruct (IH s1 Hok1) as (s' & E' & Hok' & Hc').
    exists s'. cbn [Close_times]. rewrite E. cbn. rewrite E'. cbn.
    rewrite Hc1 in *. cbn in Hc'.
    split; [|split; [done|]].
    + destruct (Chan.closed (Socket.close s)); cbn; [done|].
      do 2 f_equal.
    + rewrite Hc'. by rewrite orb_true_r.
Qed.

Lemma lookup_or_create_keeps (st st' : State) (fr : Msg) (l0 l : loc)
    (s : Socket.ntportSocket) :
  lookup_or_create fr st = (l0, st') →
  heap st !! l = Some s →
  heap st' !! l = Some s.
Proof.
  unfold lookup_or_create. destruct (so (lis st) !! Reply fr) as [l1|].
  - by intros [= <- <-].
  - intros [= <- <-] Hl. simpl. rewrite lookup_insert_ne; [done|]. intros Heq.
    pose proof (is_fresh (dom (heap st))) as Hf. rewrite Heq in Hf.
    apply Hf, elem_of_dom. eauto.
Qed.

(** A closed socket with nothing pending, and for which the accept loop is
    not past its check, stays so under every step: no frame is handed to it
    any more, so a receiver parked on it stays parked. *)
Lemma closed_empty_stable (st st' : State) (pc pc' : accept_pc) (l : loc)
    (s : Socket.ntportSocket) :
  step Message json_Unmarshal (st, pc) (st', pc') →
  Inv st →
  heap st !! l = Some s →
  Chan.closed (Socket.close s) = true →
  pending s = [] →
  inflight l pc = [] →
  heap st' !! l = Some s ∧ inflight l pc' = [].
Proof.
  intros Hstep HI Hl Hc Hp Hfl.
  pose proof (proj1 (inv_heap _ HI l s Hl)) as Hok.
  inversion Hstep; subst.
  - split; [|done].
    match goal with H : lookup_or_create _ _ = _ |- _ =>
      apply (lookup_or_create_keeps _ _ _ _ _ _ H Hl) end.
  - match goal with H : closed_check _ _ = _ |- _ =>
      by destruct (closed_check_inv _ _ _ _ HI H) as [-> _] end.
  - match goal with H : closed_check _ _ = _ |- _ =>
      destruct (closed_check_inv _ _ _ _ HI H) as [-> (s0 & Hl0 & Hc0)] end.
    split; [done|]. simpl. case_decide as Heq; [|done]. subst. congruence.
  - match goal with H : enqueue _ _ _ = _ |- _ =>
      destruct (enqueue_inv _ _ _ _ HI H) as (_ & s0 & s0' & Hl0 & -> & _) end.
    split; [|done]. simpl in *. case_decide as Heq; [discriminate|].
    by rewrite lookup_insert_ne.
  - split; [|done].
    match goal with H : Recv_at _ _ ?l0 ?out _ = _ |- _ =>
      rename H into E; rename l0 into l1; rename out into o end.
    unfold Recv_at in E. destruct (heap st !! l1) as [s0|] eqn:Hl0; [|discriminate].
    destruct (Socket.Recv Message json_Unmarshal o s0) as [[[s1 o1] e1]| |] eqn:ER;
      simpl in E; [|discriminate..].
    injection E as <- _ _. simpl.
    destruct (decide (l1 = l)) as [->|Hne]; [|by rewrite lookup_insert_ne].
    rewrite lookup_insert_eq. assert (s0 = s) as -> by congruence.
    destruct o as [out|].
    + unfold pending in Hp. apply app_eq_nil in Hp as [Hb _].
      rewrite (Recv_empty Message json_Unmarshal s out Hb (ok_r_open _ Hok)) in ER.
      discriminate.
    + rewrite Recv_nil in ER. congruence.
  - split; [|done].
    match goal with H : Close_at ?l0 _ = _ |- _ => rename H into E; rename l0 into l1 end.
    unfold Close_at in E. destruct (heap st !! l1) as [s0|] eqn:Hl0; [|discriminate].
    destruct (Close_ok s0 (proj1 (inv_heap _ HI l1 s0 Hl0)))
      as (s0' & E' & _ & _ & _ & _ & _ & Hsame).
    rewrite E' in E. simpl in E. injection E as <-. simpl.
    destruct (decide (l1 = l)) as [->|Hne]; [|by rewrite lookup_insert_ne].
    rewrite lookup_insert_eq. assert (s0 = s) as -> by congruence.
    by rewrite Hsame.
  - split; [|done].
    match goal with H : cleanup _ _ = _, Hin : _ ∈ watchers _ |- _ =>
      by destruct (cleanup_inv _ _ _ HI Hin H) as (_ & s0 & _ & _ & ->) end.
Qed.

Lemma closed_empty_forever (cfg cfg' : State * accept_pc) (l : loc)
    (s : Socket.ntportSocket) (out : Message) :
  rtc (step Message json_Unmarshal) cfg cfg' →
  Inv cfg.1 →
  heap cfg.1 !! l = Some s →
  Chan.closed (Socket.close s) = true →
  pending s = [] →
  inflight l cfg.2 = [] →
  heap cfg'.1 !! l = Some s ∧
  Socket.Recv Message json_Unmarshal (Some out) s = Blocked.
Proof.
  intros Hsteps HI Hl Hc Hp Hfl. split.
  - induction Hsteps as [|[st pc] [st1 pc1] cfg' Hstep _ IH]; [done|].
    destruct (closed_empty_stable st st1 pc pc1 l s Hstep HI Hl Hc Hp Hfl) as [Hl1 Hfl1].
    apply IH; [|done..]. by apply (step_inv Message json_Unmarshal st st1 pc pc1).
  - apply Recv_empty; [|apply (proj1 (inv_heap _ HI l s Hl))].
    unfold pending in Hp. by apply app_eq_nil in Hp as [? _].
Qed.

End lifecycle_facts.

(** ** The listener and its sockets: the stated properties *)

Section listener_claims.
Import Listener System.
Variable Message : Type.
Variable json_Unmarshal : string → option Message → option Message * option error.

Abbreviation Recv_ := (Socket.Recv Message json_Unmarshal).
Abbreviation reachable_ := (reachable Message json_Unmarshal).

(** C1, as the code has it. [Close] closes the channel [close] and leaves
    the channel [r], on which [Recv] waits, as it is. From a new listener:
    a frame makes a socket, a first [Recv] takes that frame and leaves the
    socket empty, [Close] succeeds and closes [close], and a second [Recv]
    is still parked: it does not return [io.EOF]. Whatever the goroutines
    of the listener do afterwards, the accept loop with its check and its
    enqueue as separate steps, the socket stays as it is, so that [Recv]
    never returns. *)
Theorem Close_leaves_receiver_parked (c : Conn) (a : string) (fr : Msg) (out1 out2 : Message) :
  ∃ st1 l s1 s2 s3 v err,
    dispatch fr (init c a) = Done st1 ∧
    so (lis st1) !! Reply fr = Some l ∧ heap st1 !! l = Some s1 ∧
    Recv_ (Some out1) s1 = Done (s2, Some v, err) ∧ pending s2 = [] ∧
    Socket.Close s2 = Done (s3, None) ∧
    Chan.closed (Socket.close s3) = true ∧
    Recv_ (Some out2) s3 = Blocked ∧
    ∀ st' pc',
      rtc (step Message json_Unmarshal) (set_heap (<[l := s3]> (heap st1)) st1, Idle)
          (st', pc') →
      heap st' !! l = Some s3.
Proof.
  assert (Hk : so (lis (init c a)) !! Reply fr = None) by apply lookup_empty.
  pose proof (dispatch_new (init c a) fr Hk) as E.
  destruct (dispatch_inv (init c a) fr (init_inv c a)) as (st1' & E' & HI1).
  rewrite E in E'. injection E' as <-.
  match type of E with _ = Done ?x => set (st1 := x) in * end.
  set (l := fresh (dom (heap (init c a)))) in *.
  set (s1 := Socket.mk c fr (Chan.mk 1 [fr] false) false (Chan.make 0) []) in *.
  assert (Hl1 : heap st1 !! l = Some s1) by apply lookup_insert_eq.
  assert (Hok1 : sock_ok s1) by (constructor; simpl; auto; discriminate).
  destruct (Recv_head Message json_Unmarshal s1 out1 fr [] Hok1 eq_refl)
    as (s2 & E2 & Hok2 & Hp2 & _ & Hm2).
  destruct (Close_ok s2 Hok2) as (s3 & E3 & Hok3 & Hc3 & Hm3 & Hr3 & Hb3 & _).
  assert (Hp3 : pending s3 = []).
  { unfold pending in *. by rewrite Hr3, Hb3. }
  assert (Hrecv : Recv_ (Some out2) s3 = Blocked).
  { apply Recv_empty; [|apply Hok3]. unfold pending in Hp3. by apply app_eq_nil in Hp3 as [? _]. }
  exists st1, l, s1, s2, s3. eexists _, _.
  split; [exact E|]. split; [apply lookup_insert_eq|].
  split; [done|]. split; [exact E2|]. split; [done|].
  split; [done|]. split; [done|]. split; [done|].
  intros st' pc' Hsteps.
  assert (HI3 : Inv (set_heap (<[l := s3]> (heap st1)) st1)).
  { apply (update_inv st1 l s1 s3); auto; congruence. }
  apply (closed_empty_forever Message json_Unmarshal _ (st', pc') l s3 out2 Hsteps HI3); auto.
Qed.

(** C2. Frames of one subject that the accept loop takes before any
    receive are handed out by the same number of successive [Recv], each
    frame once and in the order of delivery; [ps] is what the session held
    before (nothing when the first frame makes the socket). After these
    receives the socket is empty and a further [Recv] waits. *)
Theorem fifo_within_session (st : State) (k : string) (ps fs : list Msg) :
  session_pending st k ps →
  Forall (λ fr, Reply fr = k) fs →
  ps ++ fs ≠ [] →
  ∃ st' l s,
    Accept_loop (inl <$> fs) st = Done (st', Polling) ∧
    so (lis st') !! k = Some l ∧ heap st' !! l = Some s ∧
    ∀ outs : list Message, length outs = length (ps ++ fs) →
      ∃ s', Recv_seq Message json_Unmarshal outs s =
              Done (s', zip_with (λ out fr,
                                    Socket.decode_into Message json_Unmarshal (Data fr) out)
                                 outs (ps ++ fs)) ∧
            pending s' = [] ∧
            ∀ out, Recv_ (Some out) s' = Blocked.
Proof.
  intros Hs Hall Hne.
  destruct (Accept_loop_frames fs st k ps Hs Hall) as (st' & E & [[_ Hnil]|Hs']).
  { contradiction. }
  destruct Hs' as (l & s & Hk & Hl & Hok & Ho & Hp).
  exists st', l, s. split; [done|]. split; [done|]. split; [done|].
  intros outs Hlen.
  destruct (Recv_seq_pending Message json_Unmarshal (ps ++ fs) outs s Hok Hp Hlen)
    as (s' & E' & Hok' & Hp' & _).
  exists s'. split; [done|]. split; [done|].
  intros out. apply Recv_empty; [|apply Hok'].
  unfold pending in Hp'. by apply app_eq_nil in Hp' as [? _].
Qed.

(** C3. On any socket of any reachable state, [k] calls of [Close] all
    return nil and none panics; the channel [close] is closed by exactly one
    of them when the socket was open and [k] is positive, by none when the
    socket was closed before, and it is closed afterwards. *)
Theorem Close_idempotent (c : Conn) (a : string) (st : State) (l : loc)
    (s : Socket.ntportSocket) (k : nat) :
  reachable_ c a st →
  heap st !! l = Some s →
  ∃ s', Close_times k s =
          Done (s', replicate k None,
                if Chan.closed (Socket.close s) then 0 else Nat.min 1 k) ∧
        Chan.closed (Socket.close s') = (Chan.closed (Socket.close s) || bool_decide (0 < k)).
Proof.
  intros Hr Hl.
  pose proof (reachable_inv Message json_Unmarshal c a st Hr) as HI.
  destruct (Close_times_ok k s (proj1 (inv_heap _ HI l s Hl))) as (s' & E & _ & Hc).
  by exists s'.
Qed.

(** C4. In a reachable state, a frame whose subject is registered to a
    closed socket leaves the whole state as it is (no socket is made, no
    backlog or channel changes) and the loop goes on without an error. *)
Theorem frame_for_closed_socket_dropped (c : Conn) (a : string) (st : State) (fr : Msg)
    (l : loc) (s : Socket.ntportSocket) :
  reachable_ c a st →
  so (lis st) !! Reply fr = Some l →
  heap st !! l = Some s →
  Chan.closed (Socket.close s) = true →
  dispatch fr st = Done st ∧ Accept_iter (inl fr) st = Done (st, Polling).
Proof.
  intros Hr Hk Hl Hc.
  pose proof (reachable_inv Message json_Unmarshal c a st Hr) as HI.
  assert (E : dispatch fr st = Done st).
  { unfold dispatch, lookup_or_create. rewrite Hk.
    apply (deliver_closed st l s fr Hl (proj1 (inv_heap _ HI l s Hl)) Hc). }
  split; [done|]. unfold Accept_iter. by rewrite E.
Qed.

(** C5. In a reachable state two open sockets of one subject are one
    socket, the one registered under the subject. Closing a registered
    socket and running its clean-up goroutine removes the entry of its
    subject; the next frame of that subject then makes a socket at a new
    location, open, holding that frame only, and leaves the old one as it
    was. *)
Theorem registry_one_live_socket_and_reuse (c : Conn) (a : string) (st : State) :
  reachable_ c a st →
  (∀ l1 l2 s1 s2,
      heap st !! l1 = Some s1 → heap st !! l2 = Some s2 →
      is_open s1 → is_open s2 →
      Reply (Socket.m s1) = Reply (Socket.m s2) →
      l1 = l2 ∧ so (lis st) !! Reply (Socket.m s1) = Some l1) ∧
  (∀ k l, so (lis st) !! k = Some l →
      ∃ st1 st2,
        Close_at l st = Done st1 ∧ l ∈ watchers st1 ∧ cleanup l st1 = Done st2 ∧
        so (lis st2) !! k = None ∧
        ∀ fr, Reply fr = k →
          ∃ st3 l',
            dispatch fr st2 = Done st3 ∧
            so (lis st3) !! k = Some l' ∧
            l' ≠ l ∧ heap st2 !! l' = None ∧
            heap st3 !! l' = Some (Socket.mk (conn (lis st2)) fr (Chan.mk 1 [fr] false)
                                             false (Chan.make 0) []) ∧
            heap st3 !! l = heap st2 !! l).
Proof.
  intros Hr. pose proof (reachable_inv Message json_Unmarshal c a st Hr) as HI.
  split.
  - intros l1 l2 s1 s2 H1 H2 Ho1 Ho2 Heq.
    destruct (inv_watch _ HI l1 (proj2 (inv_heap _ HI l1 s1 H1) Ho1)) as (s1' & H1' & Hk1).
    destruct (inv_watch _ HI l2 (proj2 (inv_heap _ HI l2 s2 H2) Ho2)) as (s2' & H2' & Hk2).
    assert (s1' = s1) as -> by congruence. assert (s2' = s2) as -> by congruence.
    rewrite Heq in Hk1. split; [congruence|]. by rewrite Heq.
  - intros k l Hk. destruct (inv_so _ HI k l Hk) as (s & Hl & Hm & Hin).
    destruct (Close_at_spec st l s Hl (proj1 (inv_heap _ HI l s Hl)))
      as (s' & E1 & Hok' & Hc' & Hm' & _).
    set (st1 := set_heap (<[l := s']> (heap st)) st) in *.
    assert (HI1 : Inv st1).
    { apply (update_inv st l s s'); auto. unfold is_open. congruence. }
    assert (Hl1 : heap st1 !! l = Some s') by apply lookup_insert_eq.
    set (st2 := mkState (set_so (delete (Reply (Socket.m s')) (so (lis st1))) (lis st1))
                        (heap st1) (watchers st1 ∖ {[l]}) (handled st1)).
    assert (E2 : cleanup l st1 = Done st2).
    { unfold cleanup, Chan.recv. rewrite Hl1, (ok_close_buf _ Hok'), Hc'. done. }
    exists st1, st2. split; [done|]. split; [done|]. split; [done|].
    assert (Hnone : so (lis st2) !! k = None).
    { simpl. rewrite Hm', Hm. apply lookup_delete_eq. }
    split; [done|].
    intros fr Hfr. rewrite <- Hfr in Hnone.
    pose proof (dispatch_new st2 fr Hnone) as E3.
    assert (Hfresh : heap st2 !! fresh (dom (heap st2)) = None).
    { apply not_elem_of_dom. apply is_fresh. }
    assert (Hne : fresh (dom (heap st2)) ≠ l).
    { intros Heq. rewrite Heq in Hfresh. change (heap st2) with (heap st1) in Hfresh.
      congruence. }
    eexists _, (fresh (dom (heap st2))). split; [exact E3|].
    cbn [lis so heap set_so]. rewrite <- Hfr, !lookup_insert_eq.
    split; [done|]. split; [done|]. split; [done|]. split; [done|].
    by rewrite lookup_insert_ne.
Qed.

(** C10. [Recv] with a nil message returns an error at once, whatever the
    socket holds, also where a receive would wait, and the socket is the
    same afterwards. *)
Theorem Recv_nil_message_no_effect (s : Socket.ntportSocket) :
  Recv_ None s = Done (s, None, Some (ErrorString "message passed in is nil")).
Proof. reflexivity. Qed.

End listener_claims.

(** ** The accept loop and the results of its poll *)

Section accept_claims.
Import Listener System.
Variable Message : Type.
Variable json_Unmarshal : string → option Message → option Message * option error.

Lemma first_error_not_timeout (polls : list (Msg + error)) (err : error) :
  first_error polls = Some err → err ≠ ErrTimeout.
Proof.
  induction polls as [|[fr|e] polls IH]; simpl; [discriminate|done|].
  case_bool_decide; [done|]. congruence.
Qed.

Lemma Accept_loop_spec (polls : list (Msg + error)) (st : State) :
  Inv st →
  ∃ st',
    Accept_loop polls st =
      Done (st', match first_error polls with Some err => Returned err | None => Polling end) ∧
    Accept_loop (inl <$> frames_before_error polls) st = Done (st', Polling) ∧
    Inv st'.
Proof.
  revert st. induction polls as [|[fr|e] polls IH]; intros st HI.
  - by exists st.
  - destruct (dispatch_inv st fr HI) as (st1 & E & HI1).
    destruct (IH st1 HI1) as (st' & E1 & E2 & HI').
    exists st'. cbn [Accept_loop Accept_iter first_error frames_before_error fmap list_fmap].
    rewrite E. cbn. split; [done|]. split; [done|]. done.
  - cbn [Accept_loop Accept_iter first_error frames_before_error].
    case_bool_decide; cbn.
    + apply IH, HI.
    + by exists st.
Qed.

(** C9. A timeout of the poll changes nothing and the loop polls again. In
    a reachable state the loop over any results of the poll does not panic;
    it returns an error exactly when some result is an error other than a
    timeout, the error returned is the first such one, and the state is the
    one made by the frames polled before it. *)
Theorem Accept_returns_only_non_timeout_error (c : Conn) (a : string) (st : State)
    (polls : list (Msg + error)) :
  reachable Message json_Unmarshal c a st →
  Accept_iter (inr ErrTimeout) st = Done (st, Polling) ∧
  Accept_loop (inr ErrTimeout :: polls) st = Accept_loop polls st ∧
  (∃ st',
      Accept_loop polls st =
        Done (st', match first_error polls with Some err => Returned err | None => Polling end) ∧
      Accept_loop (inl <$> frames_before_error polls) st = Done (st', Polling)) ∧
  (∀ err, (∃ st', Accept_loop polls st = Done (st', Returned err)) ↔
          first_error polls = Some err) ∧
  (∀ err, first_error polls = Some err → err ≠ ErrTimeout).
Proof.
  intros Hr. pose proof (reachable_inv Message json_Unmarshal c a st Hr) as HI.
  destruct (Accept_loop_spec polls st HI) as (st' & E1 & E2 & _).
  split; [done|]. split; [done|]. split; [by exists st'|]. split.
  - intros err. rewrite E1. split.
    + intros [st'' E]. destruct (first_error polls); congruence.
    + intros ->. by exists st'.
  - apply first_error_not_timeout.
Qed.

End accept_claims.

(** ** The transport factory *)

Section transport_claims.
Variable TLS : Type.
Variable DefaultURL : string.
Variable DefaultOptions : Transport.NatsOptions TLS.
Variable Connect : Transport.NatsOptions TLS → Conn + error.
Variable inbox_name : nat → string.

Lemma length_zero_empty (a : string) : String.length a = 0 ↔ a = "".
Proof. destruct a; simpl; split; (done || discriminate). Qed.

Lemma add_addr_fold (addrs acc : list string) :
  fold_left Transport.add_addr addrs acc = acc ++ AddrSpec.normalize addrs.
Proof.
  revert acc. induction addrs as [|a addrs IH]; intros acc; simpl.
  - by rewrite app_nil_r.
  - rewrite IH. unfold Transport.add_addr, AddrSpec.normalize.
    rewrite filter_cons. case_bool_decide as Hlen; case_decide as Hne.
    + apply length_zero_empty in Hlen. contradiction.
    + done.
    + rewrite fmap_cons. by rewrite <- app_assoc.
    + exfalso. apply Hlen, length_zero_empty. by destruct (decide (a = "")).
Qed.

Lemma prefix_append (p a : string) : String.prefix p (p +:+ a) = true.
Proof.
  induction p as [|x p IH]; simpl; [by destruct a|].
  destruct (Ascii.ascii_dec x x); [done|congruence].
Qed.

(** C7. The stored list is the given list without its empty entries, every
    entry kept as it is when it starts with the scheme and with the scheme
    put in front otherwise; when nothing is left it is the default URL
    alone. Every entry of a list that is not the fallback starts with the
    scheme. *)
Theorem NewTransport_normalizes (addrs : list string)
    (os : list (Transport.Options TLS → Transport.Options TLS)) :
  Transport.addrs TLS (Transport.NewTransport TLS DefaultURL addrs os) =
    (if decide (AddrSpec.normalize addrs = []) then [DefaultURL]
     else AddrSpec.normalize addrs) ∧
  AddrSpec.normalize addrs =
    (λ a, if String.prefix "nats://" a then a else "nats://" +:+ a)
      <$> filter (λ a, a ≠ "") addrs ∧
  Forall (λ a, String.prefix "nats://" a = true) (AddrSpec.normalize addrs).
Proof.
  split; [|split; [reflexivity|]].
  - unfold Transport.NewTransport; simpl. rewrite add_addr_fold; simpl.
    by destruct (AddrSpec.normalize addrs) as [|x xs].
  - unfold AddrSpec.normalize. apply Forall_fmap, Forall_forall.
    intros x _. simpl. unfold AddrSpec.canonical.
    destruct (String.prefix "nats://" x) eqn:E; [done|]. apply prefix_append.
Qed.

Abbreviation Listen_ := (Transport.Listen TLS DefaultOptions Connect inbox_name).

(** C8. When the connection is made, the listener that [Listen] returns is
    the same for every address argument; its subject is the name that
    [nats.NewInbox] gives at this call, [Addr] returns it, the accept loop
    subscribes to it, and, the inbox names being unique, every later call of
    [Listen] gives a listener with another subject. *)
Theorem Listen_subject_is_new_inbox (n : Transport.ntport TLS) (addr1 addr2 : string)
    (w : Bus.World) (c : Conn) :
  Connect (Transport.connect_options TLS n (Transport.nTimeout TLS DefaultOptions)) = inl c →
  (∀ i j, inbox_name i = inbox_name j → i = j) →
  ∃ l w',
    Listen_ n addr1 w = (inl l, w') ∧
    Listen_ n addr2 w = (inl l, w') ∧
    Listener.Addr l = (Bus.NewInbox inbox_name w).1 ∧
    w' = (Bus.NewInbox inbox_name w).2 ∧
    (∀ w2, Listener.Accept_subscribe l w2 =
             Bus.SubscribeSync (Listener.conn l) (Listener.Addr l) w2) ∧
    (∀ w2, Listener.conn l ∉ Bus.gone w2 →
           (Listener.Accept_subscribe l w2).1 = inl (Listener.Addr l)) ∧
    (∀ w2 addr3, Bus.nuid w < Bus.nuid w2 →
       ∃ l2 w3, Listen_ n addr3 w2 = (inl l2, w3) ∧ Listener.Addr l2 ≠ Listener.Addr l).
Proof.
  intros HC Hinj. unfold Transport.Listen. rewrite HC. simpl.
  eexists _, _. split; [reflexivity|]. split; [reflexivity|]. simpl.
  split; [done|]. split; [done|]. split; [done|]. split.
  - intros w2 Hg. unfold Listener.Accept_subscribe, Bus.SubscribeSync. simpl.
    rewrite bool_decide_eq_false_2 by done. by destruct (Bus.subs w2 !! _).
  - intros w2 addr3 Hlt. eexists _, _. split; [reflexivity|]. simpl.
    intros Heq. apply Hinj in Heq. lia.
Qed.

End transport_claims.

(** ** The connection of the sockets *)

Section connection_facts.
Import Listener System.
Variable Message : Type.
Variable json_Unmarshal : string → option Message → option Message * option error.

Lemma handoff_conn (s s' : Socket.ntportSocket) :
  Socket.handoff s = Done s' → Socket.conn s' = Socket.conn s.
Proof.
  unfold Socket.handoff. destruct (Socket.bl s); [by intros [= <-]|].
  destruct (Chan.send _ _); [|by intros [= <-]|discriminate]. by intros [= <-].
Qed.

Lemma Recv_conn (s s' : Socket.ntportSocket) (out out' : option Message) (err : option error) :
  Socket.Recv Message json_Unmarshal out s = Done (s', out', err) →
  Socket.conn s' = Socket.conn s.
Proof.
  unfold Socket.Recv. destruct out as [cur|]; [|by intros [= <- _ _]].
  destruct (Chan.recv (Socket.r s)) as [fr c| |]; [|by intros [= <- _ _]|discriminate].
  destruct (Socket.handoff (Socket.set_r c s)) as [s1| |] eqn:E; cbn; [|discriminate..].
  destruct (Socket.decode_into Message json_Unmarshal (Data fr) cur).
  intros [= <- _ _]. by apply handoff_conn in E.
Qed.

Lemma Close_conn (s s' : Socket.ntportSocket) (err : option error) :
  Socket.Close s = Done (s', err) → Socket.conn s' = Socket.conn s.
Proof.
  unfold Socket.Close. destruct (Socket.once s); [by intros [= <- _]|].
  destruct (Chan.close (Socket.close s)); [|discriminate]. by intros [= <- _].
Qed.

Lemma step_conn (c : Conn) (st st' : State) (pc pc' : accept_pc) :
  step Message json_Unmarshal (st, pc) (st', pc') → conn_ok c st → conn_ok c st'.
Proof.
  intros Hstep [Hc Hh]. inversion Hstep; subst.
  - match goal with H : lookup_or_create ?fr _ = _ |- _ => rename H into E; rename fr into fr0 end.
    unfold lookup_or_create in E. destruct (so (lis st) !! Reply fr0); injection E as _ <-; [done|].
    split; [done|]. simpl. intros l1 s1. destruct (decide (fresh (dom (heap st)) = l1)) as [<-|Hne].
    + rewrite lookup_insert_eq. by intros [= <-].
    + rewrite lookup_insert_ne by done. apply Hh.
  - match goal with H : closed_check ?l0 _ = _ |- _ => rename H into E; rename l0 into l1 end.
    unfold closed_check in E. destruct (heap st !! l1) as [s0|] eqn:Hl0; [|discriminate].
    destruct (Chan.recv (Socket.close s0)); [|by injection E as <-|discriminate].
    injection E as <-.
    split; [done|]. simpl. intros l2 s2. destruct (decide (l1 = l2)) as [<-|Hne].
    + rewrite lookup_insert_eq. intros [= <-]. by apply (Hh l1 s0).
    + rewrite lookup_insert_ne by done. apply Hh.
  - match goal with H : closed_check ?l0 _ = _ |- _ => rename H into E; rename l0 into l1 end.
    unfold closed_check in E. destruct (heap st !! l1) as [s0|] eqn:Hl0; [|discriminate].
    destruct (Chan.recv (Socket.close s0)); [discriminate..|]. by injection E as <-.
  - match goal with H : enqueue ?l0 _ _ = _ |- _ => rename H into E; rename l0 into l1 end.
    unfold enqueue in E. destruct (heap st !! l1) as [s0|] eqn:Hl0; [|discriminate].
    destruct (Socket.handoff _) as [s1| |] eqn:E1; cbn in E; [|discriminate..].
    injection E as <-. apply handoff_conn in E1. simpl in E1.
    split; [done|]. simpl. intros l2 s2. destruct (decide (l1 = l2)) as [<-|Hne].
    + rewrite lookup_insert_eq. intros [= <-]. rewrite E1. by apply (Hh l1 s0).
    + rewrite lookup_insert_ne by done. apply Hh.
  - match goal with H : Recv_at _ _ ?l0 ?out _ = _ |- _ =>
      rename H into E; rename l0 into l1; rename out into o end.
    unfold Recv_at in E. destruct (heap st !! l1) as [s0|] eqn:Hl0; [|discriminate].
    destruct (Socket.Recv Message json_Unmarshal o s0) as [[[s1 o1] e1]| |] eqn:ER;
      simpl in E; [|discriminate..].
    injection E as <- _ _. apply Recv_conn in ER.
    split; [done|]. simpl. intros l2 s2. destruct (decide (l1 = l2)) as [<-|Hne].
    + rewrite lookup_insert_eq. intros [= <-]. rewrite ER. by apply (Hh l1 s0).
    + rewrite lookup_insert_ne by done. apply Hh.
  - match goal with H : Close_at ?l0 _ = _ |- _ => rename H into E; rename l0 into l1 end.
    unfold Close_at in E. destruct (heap st !! l1) as [s0|] eqn:Hl0; [|discriminate].
    destruct (Socket.Close s0) as [[s1 e1]| |] eqn:EC; simpl in E; [|discriminate..].
    injection E as <-. apply Close_conn in EC.
    split; [done|]. simpl. intros l2 s2. destruct (decide (l1 = l2)) as [<-|Hne].
    + rewrite lookup_insert_eq. intros [= <-]. rewrite EC. by apply (Hh l1 s0).
    + rewrite lookup_insert_ne by done. apply Hh.
  - match goal with H : cleanup ?l0 _ = _ |- _ => rename H into E; rename l0 into l1 end.
    unfold cleanup in E. destruct (heap st !! l1) as [s0|] eqn:Hl0; [|discriminate].
    destruct (Chan.recv (Socket.close s0)); [|by injection E as <-|discriminate].
    injection E as <-. split; [done|]. simpl.
    intros l2 s2. destruct (decide (l1 = l2)) as [<-|Hne].
    + rewrite lookup_insert_eq. intros [= <-]. by apply (Hh l1 s0).
    + rewrite lookup_insert_ne by done. apply Hh.
Qed.

Lemma steps_conn (c : Conn) (cfg cfg' : State * accept_pc) :
  rtc (step Message json_Unmarshal) cfg cfg' → conn_ok c cfg.1 → conn_ok c cfg'.1.
Proof.
  induction 1 as [|[st pc] [st1 pc1] cfg' Hstep _ IH]; [done|].
  intros H. apply IH. by apply (step_conn c st st1 pc pc1).
Qed.

(** The sockets of a listener publish on the connection of the listener. *)
Lemma reachable_conn (c : Conn) (a : string) (st : State) :
  reachable Message json_Unmarshal c a st → conn_ok c st.
Proof.
  intros [pc Hr]. apply (steps_conn c _ _ Hr). split; [done|].
  intros l s. simpl. rewrite lookup_empty. discriminate.
Qed.

End connection_facts.

(** ** A request and its reply *)

Section round_trip.
Import System.
Variable Message : Type.
Variable json_Marshal : option Message → string + error.
Variable json_Unmarshal : string → option Message → option Message * option error.

(** What is encoded from a message decodes to that message, into a pointer
    that holds nil. *)
Hypothesis json_round_trip : ∀ (v : Message) (b : string),
  json_Marshal (Some v) = inl b → json_Unmarshal b None = (Some v, None).

(** C6. A client subscribed to its own reply subject sends [msg] to a
    listener, in any reachable state, whose session for that subject is
    idle (no socket yet, or an open socket with nothing pending), both
    queues of the bus being empty. The accept loop polls the frame and hands
    it to the socket of the session; the handler's [Recv] takes it and
    leaves in the handler's message what the encoding of [msg] decodes to
    there, which is [msg] when decoding into that message gives what
    decoding into a nil pointer gives; its [Send] of [reply] and its [Close]
    succeed; the client's [Recv] then yields [reply] and no error. *)
Theorem request_reply_round_trip (c : Conn) (a : string) (cl : Client.ntportClient)
    (st : Listener.State) (w : Bus.World) (cs cc : Conn)
    (msg reply sout cout : Message) (b b' : string) :
  reachable Message json_Unmarshal c a st →
  session_pending st (Client.id cl) [] →
  Client.sub cl = Client.id cl →
  Client.addr cl = Listener.addr (Listener.lis st) →
  Client.id cl ≠ Listener.addr (Listener.lis st) →
  Bus.subs w !! Listener.addr (Listener.lis st) = Some (cs, []) →
  Bus.subs w !! Client.id cl = Some (cc, []) →
  Client.conn cl ∉ Bus.gone w →
  c ∉ Bus.gone w →
  json_Marshal (Some msg) = inl b →
  json_Marshal (Some reply) = inl b' →
  ∃ w1 w2 w3 w4 st1 l s1 s2 s3,
    Client.Send Message json_Marshal (Some msg) cl w = (None, w1) ∧
    Listener.Accept_poll (Listener.addr (Listener.lis st)) st w1 =
      (Done (st1, Listener.Polling), w2) ∧
    Listener.so (Listener.lis st1) !! Client.id cl = Some l ∧
    Listener.heap st1 !! l = Some s1 ∧
    Socket.Recv Message json_Unmarshal (Some sout) s1 =
      Done (s2, Some (default sout (json_Unmarshal b (Some sout)).1),
            (json_Unmarshal b (Some sout)).2) ∧
    (json_Unmarshal b (Some sout) = json_Unmarshal b None →
     Socket.Recv Message json_Unmarshal (Some sout) s1 = Done (s2, Some msg, None)) ∧
    Socket.Send Message json_Marshal (Some reply) s2 w2 = (None, w3) ∧
    Socket.Close s2 = Done (s3, None) ∧
    Client.Recv Message json_Unmarshal (Some cout) cl w3 = (Done (Some reply, None), w4).
Proof.
  intros Hr Hs Hsub Haddr Hne Hsrv Hcli Hgc Hgs HM HM'.
  pose proof (reachable_inv Message json_Unmarshal c a st Hr) as HI.
  pose proof (reachable_conn Message json_Unmarshal c a st Hr) as HC.
  set (A := Listener.addr (Listener.lis st)) in *.
  set (fr := mkMsg A (Client.id cl) b).
  (* the client publishes the request *)
  assert (E1 : Client.Send Message json_Marshal (Some msg) cl w =
               (None, Bus.mkWorld (<[A := (cs, [fr])]> (Bus.subs w)) (Bus.gone w) (Bus.nuid w))).
  { unfold Client.Send, Bus.PublishRequest, Bus.publish. rewrite HM, Haddr. simpl.
    rewrite bool_decide_eq_false_2 by done. fold A. by rewrite Hsrv. }
  (* the accept loop polls it and hands it to the socket of the session *)
  set (w2 := Bus.mkWorld (<[A := (cs, [])]> (<[A := (cs, [fr])]> (Bus.subs w)))
                         (Bus.gone w) (Bus.nuid w)).
  destruct (dispatch_session st (Client.id cl) [] fr Hs eq_refl)
    as (st1 & E2 & [[_ Hnil]|(l & s1 & Hk1 & Hl1 & Hok1 & Ho1 & Hp1)] & _); [discriminate|].
  assert (E2' : Listener.Accept_poll A st
                  (Bus.mkWorld (<[A := (cs, [fr])]> (Bus.subs w)) (Bus.gone w) (Bus.nuid w)) =
                (Done (st1, Listener.Polling), w2)).
  { unfold Listener.Accept_poll, Bus.NextMsg. simpl. rewrite lookup_insert_eq.
    unfold Listener.Accept_iter. rewrite E2. reflexivity. }
  assert (HI1 : Inv st1).
  { destruct (dispatch_inv st fr HI) as (st1' & E & HI1). congruence. }
  assert (HC1 : conn_ok c st1).
  { apply (steps_conn Message json_Unmarshal c (st, Idle) (st1, Idle)); [|done].
    by apply (dispatch_steps Message json_Unmarshal fr). }
  assert (Hm1 : Reply (Socket.m s1) = Client.id cl).
  { destruct (inv_so _ HI1 _ _ Hk1) as (s & Hl & Hm & _). congruence. }
  (* the handler receives the request *)
  destruct (Recv_head Message json_Unmarshal s1 sout fr [] Hok1 Hp1)
    as (s2 & E3 & Hok2 & _ & _ & Hm2).
  assert (Hc2 : Socket.conn s2 = c).
  { rewrite (Recv_conn Message json_Unmarshal _ _ _ _ _ E3). by apply (proj2 HC1 l). }
  unfold Socket.decode_into in E3. simpl in E3.
  destruct (Close_ok s2 Hok2) as (s3 & E5 & _).
  (* the handler replies *)
  set (rp := mkMsg (Client.id cl) "" b').
  assert (E4 : Socket.Send Message json_Marshal (Some reply) s2 w2 =
               (None, Bus.mkWorld (<[Client.id cl := (cc, [rp])]> (Bus.subs w2))
                                  (Bus.gone w) (Bus.nuid w))).
  { unfold Socket.Send, Bus.Publish, Bus.publish. rewrite HM', Hc2, Hm2, Hm1. simpl.
    rewrite bool_decide_eq_false_2 by done.
    rewrite !lookup_insert_ne by done. by rewrite Hcli. }
  eexists _, w2, _, _, st1, l, s1, s2, s3.
  split; [exact E1|]. split; [exact E2'|]. split; [done|]. split; [done|].
  split; [by destruct (json_Unmarshal b (Some sout))|].
  split.
  { intros Heq. rewrite Heq, (json_round_trip msg b HM) in E3. exact E3. }
  split; [exact E4|]. split; [done|].
  (* the client receives the reply *)
  unfold Client.Recv, Bus.NextMsg. rewrite Hsub. simpl. rewrite lookup_insert_eq.
  subst rp. simpl.
  by rewrite (json_round_trip reply b' HM').
Qed.

End round_trip.

(** ** The shape of a step *)

Section step_shape.
Import Listener System.
Variable Message : Type.
Variable json_Unmarshal : string → option Message → option Message * option error.

(** What a successful [Recv] does to a socket: nothing, or it takes the
    oldest pending frame. *)
Lemma Recv_shape (s s' : Socket.ntportSocket) (out out' : option Message) (err : option error) :
  sock_ok s →
  Socket.Recv Message json_Unmarshal out s = Done (s', out', err) →
  sock_ok s' ∧ Socket.close s' = Socket.close s ∧ Socket.m s' = Socket.m s ∧
  (s' = s ∨ ∃ fr, pending s = fr :: pending s').
Proof.
  intros Hok E. destruct out as [out|].
  - destruct (pending s) as [|fr ps] eqn:Hp.
    + unfold pending in Hp. apply app_eq_nil in Hp as [Hb _].
      rewrite (Recv_empty Message json_Unmarshal s out Hb (ok_r_open _ Hok)) in E. discriminate.
    + destruct (Recv_head Message json_Unmarshal s out fr ps Hok Hp) as (s1 & E1 & ? & ? & ? & ?).
      rewrite E1 in E. injection E as <- _ _.
      split; [done|]. split; [done|]. split; [done|]. right. exists fr. congruence.
  - rewrite Recv_nil in E. injection E as <- _ _. auto.
Qed.

Lemma set_heap_same (st : State) (l : loc) (s : Socket.ntportSocket) :
  heap st !! l = Some s → set_heap (<[l := s]> (heap st)) st = st.
Proof. intros Hl. destruct st as [n h ws hs]. unfold set_heap; simpl in *. by rewrite insert_id. Qed.

(** A step leaves the sockets and the registry as they are, or rewrites
    one socket in place (keeping its first frame and never reopening it), or
    makes the socket of a new subject, or is the clean-up of a closed
    socket. *)
Lemma step_shape (st st' : State) (pc pc' : accept_pc) :
  step Message json_Unmarshal (st, pc) (st', pc') →
  Inv st →
  st' = st ∨
  (∃ l s s',
      heap st !! l = Some s ∧ st' = set_heap (<[l := s']> (heap st)) st ∧
      sock_ok s' ∧ Socket.m s' = Socket.m s ∧
      (Chan.closed (Socket.close s) = true → Chan.closed (Socket.close s') = true)) ∨
  (∃ fr,
      so (lis st) !! Reply fr = None ∧
      st' = mkState (set_so (<[Reply fr := fresh (dom (heap st))]> (so (lis st))) (lis st))
                    (<[fresh (dom (heap st)) :=
                         Socket.mk (conn (lis st)) fr (Chan.make 1) false (Chan.make 0) []]>
                       (heap st))
                    ({[fresh (dom (heap st))]} ∪ watchers st)
                    (handled st ++ [fresh (dom (heap st))])) ∨
  (∃ l s,
      l ∈ watchers st ∧ heap st !! l = Some s ∧ Chan.closed (Socket.close s) = true ∧
      st' = mkState (set_so (delete (Reply (Socket.m s)) (so (lis st))) (lis st))
                    (heap st) (watchers st ∖ {[l]}) (handled st)).
Proof.
  intros Hstep HI. inversion Hstep; subst.
  - match goal with H : lookup_or_create ?fr _ = _ |- _ => rename H into E; rename fr into fr0 end.
    unfold lookup_or_create in E. destruct (so (lis st) !! Reply fr0) as [l0|] eqn:Hk.
    + left. by injection E as _ <-.
    + right. right. left. exists fr0. split; [done|]. by injection E as _ <-.
  - left. match goal with H : closed_check _ _ = _ |- _ =>
      by destruct (closed_check_inv _ _ _ _ HI H) as [-> _] end.
  - left. match goal with H : closed_check _ _ = _ |- _ =>
      by destruct (closed_check_inv _ _ _ _ HI H) as [-> _] end.
  - right. left. match goal with H : enqueue ?l0 _ _ = _ |- _ =>
      destruct (enqueue_inv _ _ _ _ HI H) as (_ & s0 & s0' & Hl0 & -> & Hok & _ & Hc & Hm);
      exists l0, s0, s0' end.
    split; [done|]. split; [done|]. split; [done|]. split; [done|]. congruence.
  - right. left.
    match goal with H : Recv_at _ _ ?l0 ?out _ = _ |- _ =>
      rename H into E; rename l0 into l1; rename out into o end.
    unfold Recv_at in E. destruct (heap st !! l1) as [s0|] eqn:Hl0; [|discriminate].
    destruct (Socket.Recv Message json_Unmarshal o s0) as [[[s1 o1] e1]| |] eqn:ER;
      simpl in E; [|discriminate..].
    injection E as <- _ _.
    destruct (Recv_shape s0 s1 o o1 e1 (proj1 (inv_heap _ HI l1 s0 Hl0)) ER)
      as (Hok1 & Hc1 & Hm1 & _).
    exists l1, s0, s1. split; [done|]. split; [done|]. split; [done|]. split; [done|].
    congruence.
  - right. left.
    match goal with H : Close_at ?l0 _ = _ |- _ => rename H into E; rename l0 into l1 end.
    unfold Close_at in E. destruct (heap st !! l1) as [s0|] eqn:Hl0; [|discriminate].
    destruct (Close_ok s0 (proj1 (inv_heap _ HI l1 s0 Hl0)))
      as (s0' & E' & Hok' & Hc' & Hm' & _).
    rewrite E' in E. simpl in E. injection E as <-.
    exists l1, s0, s0'. split; [done|]. split; [done|]. split; [done|]. split; [done|]. done.
  - right. right. right.
    match goal with H : cleanup ?l0 _ = _, Hin : _ ∈ watchers _ |- _ =>
      destruct (cleanup_inv _ _ _ HI Hin H) as (_ & s0 & Hl0 & Hc0 & ->); by exists l0, s0 end.
Qed.

End step_shape.

(** ** Sessions side by side, and the life of a socket *)

Section more_listener_facts.
Import Listener System.
Variable Message : Type.
Variable json_Unmarshal : string → option Message → option Message * option error.

Lemma dispatch_shape (st st' : State) (fr : Msg) :
  Inv st →
  dispatch fr st = Done st' →
  (∃ l0 s0 s0',
      so (lis st) !! Reply fr = Some l0 ∧ heap st !! l0 = Some s0 ∧
      Reply (Socket.m s0) = Reply fr ∧
      st' = set_heap (<[l0 := s0']> (heap st)) st ∧
      ((Chan.closed (Socket.close s0) = true ∧ s0' = s0) ∨
       (is_open s0 ∧ sock_ok s0' ∧ pending s0' = pending s0 ++ [fr] ∧
        Socket.close s0' = Socket.close s0 ∧ Socket.m s0' = Socket.m s0))) ∨
  (so (lis st) !! Reply fr = None ∧
   st' = mkState (set_so (<[Reply fr := fresh (dom (heap st))]> (so (lis st))) (lis st))
                 (<[fresh (dom (heap st)) :=
                      Socket.mk (conn (lis st)) fr (Chan.mk 1 [fr] false) false
                                (Chan.make 0) []]> (heap st))
                 ({[fresh (dom (heap st))]} ∪ watchers st)
                 (handled st ++ [fresh (dom (heap st))])).
Proof.
  intros HI E. destruct (so (lis st) !! Reply fr) as [l0|] eqn:Hk.
  - left. unfold dispatch, lookup_or_create in E. rewrite Hk in E.
    destruct (inv_so _ HI _ _ Hk) as (s0 & Hl0 & Hm0 & _).
    pose proof (proj1 (inv_heap _ HI l0 s0 Hl0)) as Hok0.
    destruct (Chan.closed (Socket.close s0)) eqn:Hc0.
    + rewrite (deliver_closed st l0 s0 fr Hl0 Hok0 Hc0) in E. injection E as <-.
      exists l0, s0, s0. rewrite (set_heap_same st l0 s0 Hl0). auto 10.
    + destruct (deliver_open st l0 s0 fr Hl0 Hok0 Hc0) as (s0' & E' & Hok' & Hp & Hc & Hm).
      rewrite E' in E. injection E as <-.
      exists l0, s0, s0'. split; [done|]. split; [done|]. split; [done|]. split; [done|].
      right. auto.
  - right. split; [done|]. rewrite (dispatch_new st fr Hk) in E. by injection E as <-.
Qed.

Lemma fresh_not_allocated (st : State) (l : loc) (s : Socket.ntportSocket) :
  heap st !! l = Some s → fresh (dom (heap st)) ≠ l.
Proof.
  intros Hl Heq. pose proof (is_fresh (dom (heap st))) as Hf. rewrite Heq in Hf.
  apply Hf, elem_of_dom. eauto.
Qed.

(** A frame of another subject leaves a session as it is. *)
Lemma dispatch_other_session (st st' : State) (k : string) (ps : list Msg) (fr : Msg) :
  Inv st →
  session_pending st k ps →
  Reply fr ≠ k →
  dispatch fr st = Done st' →
  session_pending st' k ps.
Proof.
  intros HI Hs Hne E.
  destruct (dispatch_shape st st' fr HI E)
    as [(l0 & s0 & s0' & Hk0 & Hl0 & Hm0 & -> & _)|[Hk0 ->]].
  - destruct Hs as [[Hk ->]|(l & s & Hk & Hl & Hok & Ho & Hp)]; [by left|].
    right. exists l, s. simpl. split; [done|]. split; [|done].
    rewrite lookup_insert_ne; [done|]. intros ->.
    destruct (inv_so _ HI _ _ Hk) as (s1 & Hl1 & Hm1 & _). congruence.
  - destruct Hs as [[Hk ->]|(l & s & Hk & Hl & Hok & Ho & Hp)].
    + left. simpl. by rewrite lookup_insert_ne.
    + right. exists l, s. simpl. rewrite lookup_insert_ne by done. split; [done|].
      split; [|done]. rewrite lookup_insert_ne; [done|]. by apply (fresh_not_allocated st l s).
Qed.

Lemma Accept_loop_demux (fs : list Msg) (st : State) (k : string) (ps : list Msg) :
  Inv st →
  session_pending st k ps →
  ∃ st', Accept_loop (inl <$> fs) st = Done (st', Polling) ∧ Inv st' ∧
         session_pending st' k (ps ++ filter (λ fr, Reply fr = k) fs).
Proof.
  revert st ps. induction fs as [|fr fs IH]; intros st ps HI Hs.
  - exists st. simpl. by rewrite app_nil_r.
  - destruct (dispatch_inv st fr HI) as (st1 & E & HI1).
    rewrite filter_cons.
    cbn [fmap list_fmap Accept_loop Accept_iter]. rewrite E. cbn [mbind outcome_bind fst snd].
    case_decide as Hk.
    + destruct (dispatch_session st k ps fr Hs Hk) as (st1' & E' & Hs1 & _).
      assert (st1' = st1) as -> by congruence.
      destruct (IH st1 (ps ++ [fr]) HI1 Hs1) as (st' & EL & HI' & Hs').
      exists st'. split; [done|]. split; [done|]. by rewrite <- app_assoc in Hs'.
    + pose proof (dispatch_other_session st st1 k ps fr HI Hs Hk E) as Hs1.
      apply (IH st1 ps HI1 Hs1).
Qed.

(** One step on one socket: it stays in the store with its first frame,
    and a closed one stays closed. *)
Lemma step_socket (st st' : State) (pc pc' : accept_pc) (l : loc) (s : Socket.ntportSocket) :
  step Message json_Unmarshal (st, pc) (st', pc') →
  Inv st →
  heap st !! l = Some s →
  ∃ s', heap st' !! l = Some s' ∧ Socket.m s' = Socket.m s ∧
        (Chan.closed (Socket.close s) = true → Chan.closed (Socket.close s') = true).
Proof.
  intros Hstep HI Hl.
  destruct (step_shape Message json_Unmarshal st st' pc pc' Hstep HI)
    as [->|[(l0 & s0 & s0' & Hl0 & -> & _ & Hm & Hc)|[(fr & _ & ->)|(l0 & s0 & _ & _ & _ & ->)]]];
    simpl.
  - exists s. auto.
  - destruct (decide (l0 = l)) as [->|Hne].
    + exists s0'. rewrite lookup_insert_eq. assert (s0 = s) as -> by congruence. auto.
    + exists s. rewrite lookup_insert_ne by done. auto.
  - exists s. rewrite lookup_insert_ne by (by apply (fresh_not_allocated st l s)). auto.
  - exists s. auto.
Qed.

Lemma steps_socket (cfg cfg' : State * accept_pc) (l : loc) (s : Socket.ntportSocket) :
  rtc (step Message json_Unmarshal) cfg cfg' →
  Inv cfg.1 →
  heap cfg.1 !! l = Some s →
  ∃ s', heap cfg'.1 !! l = Some s' ∧ Socket.m s' = Socket.m s ∧
        (Chan.closed (Socket.close s) = true → Chan.closed (Socket.close s') = true).
Proof.
  intros Hsteps. revert s.
  induction Hsteps as [cfg|[st pc] [st1 pc1] cfg' Hstep _ IH]; intros s HI Hl.
  - exists s. auto.
  - destruct (step_socket st st1 pc pc1 l s Hstep HI Hl) as (s1 & Hl1 & Hm1 & Hc1).
    destruct (IH s1 (step_inv Message json_Unmarshal st st1 pc pc1 Hstep HI) Hl1)
      as (s' & Hl' & Hm' & Hc').
    exists s'. split; [done|]. split; [congruence|]. auto.
Qed.

(** One step on a closed socket: the frames it holds, together with the one
    the accept loop may still be about to give it, are only taken from the
    front. *)
Lemma step_closed (st st' : State) (pc pc' : accept_pc) (l : loc) (s : Socket.ntportSocket) :
  step Message json_Unmarshal (st, pc) (st', pc') →
  Inv st →
  heap st !! l = Some s →
  Chan.closed (Socket.close s) = true →
  ∃ s', heap st' !! l = Some s' ∧ Chan.closed (Socket.close s') = true ∧
        (pending s' ++ inflight l pc') `suffix_of` (pending s ++ inflight l pc) ∧
        (inflight l pc = [] → inflight l pc' = []).
Proof.
  intros Hstep HI Hl Hc. inversion Hstep; subst.
  - exists s. split; [|done].
    match goal with H : lookup_or_create _ _ = _ |- _ =>
      apply (lookup_or_create_keeps _ _ _ _ _ _ H Hl) end.
  - match goal with H : closed_check _ _ = _ |- _ =>
      destruct (closed_check_inv _ _ _ _ HI H) as [-> _] end.
    by exists s.
  - match goal with H : closed_check _ _ = _ |- _ =>
      destruct (closed_check_inv _ _ _ _ HI H) as [-> (s0 & Hl0 & Hc0)] end.
    exists s. split; [done|]. split; [done|]. simpl.
    case_decide as Heq; [subst; congruence|done].
  - match goal with H : enqueue _ _ _ = _ |- _ =>
      destruct (enqueue_inv _ _ _ _ HI H) as (_ & s0 & s0' & Hl0 & -> & _ & Hp & Hcl & _) end.
    simpl. case_decide as Heq.
    + subst. assert (s0 = s) as -> by congruence.
      exists s0'. rewrite lookup_insert_eq. split; [done|]. split; [congruence|].
      split; [|done]. by rewrite Hp, app_nil_r.
    + exists s. by rewrite lookup_insert_ne.
  - match goal with H : Recv_at _ _ ?l0 ?out _ = _ |- _ =>
      rename H into E; rename l0 into l1; rename out into o end.
    unfold Recv_at in E. destruct (heap st !! l1) as [s0|] eqn:Hl0; [|discriminate].
    destruct (Socket.Recv Message json_Unmarshal o s0) as [[[s1 o1] e1]| |] eqn:ER;
      simpl in E; [|discriminate..].
    injection E as <- _ _. simpl.
    destruct (decide (l1 = l)) as [->|Hne]; [|exists s; by rewrite lookup_insert_ne].
    assert (s0 = s) as -> by congruence.
    destruct (Recv_shape Message json_Unmarshal s s1 o o1 e1 (proj1 (inv_heap _ HI l s Hl)) ER)
      as (_ & Hc1 & _ & Hp1).
    exists s1. rewrite lookup_insert_eq. split; [done|]. split; [congruence|].
    split; [|done]. destruct Hp1 as [->|[fr ->]]; [done|]. simpl. by apply suffix_cons_r.
  - match goal with H : Close_at ?l0 _ = _ |- _ => rename H into E; rename l0 into l1 end.
    unfold Close_at in E. destruct (heap st !! l1) as [s0|] eqn:Hl0; [|discriminate].
    destruct (Close_ok s0 (proj1 (inv_heap _ HI l1 s0 Hl0)))
      as (s0' & E' & _ & Hc' & _ & Hr' & Hb' & _).
    rewrite E' in E. simpl in E. injection E as <-. simpl.
    destruct (decide (l1 = l)) as [->|Hne]; [|exists s; by rewrite lookup_insert_ne].
    assert (s0 = s) as -> by congruence.
    exists s0'. rewrite lookup_insert_eq. split; [done|]. split; [done|].
    split; [|done]. unfold pending. by rewrite Hr', Hb'.
  - match goal with H : cleanup _ _ = _, Hin : _ ∈ watchers _ |- _ =>
      destruct (cleanup_inv _ _ _ HI Hin H) as (_ & s0 & _ & _ & ->) end.
    by exists s.
Qed.

Lemma steps_closed (cfg cfg' : State * accept_pc) (l : loc) (s : Socket.ntportSocket) :
  rtc (step Message json_Unmarshal) cfg cfg' →
  Inv cfg.1 →
  heap cfg.1 !! l = Some s →
  Chan.closed (Socket.close s) = true →
  ∃ s', heap cfg'.1 !! l = Some s' ∧ Chan.closed (Socket.close s') = true ∧
        (pending s' ++ inflight l cfg'.2) `suffix_of` (pending s ++ inflight l cfg.2) ∧
        (inflight l cfg.2 = [] → inflight l cfg'.2 = []).
Proof.
  intros Hsteps. revert s.
  induction Hsteps as [cfg|[st pc] [st1 pc1] cfg' Hstep _ IH]; intros s HI Hl Hc.
  - by exists s.
  - destruct (step_closed st st1 pc pc1 l s Hstep HI Hl Hc) as (s1 & Hl1 & Hc1 & Hs1 & Hf1).
    destruct (IH s1 (step_inv Message json_Unmarshal st st1 pc pc1 Hstep HI) Hl1 Hc1)
      as (s' & Hl' & Hc' & Hs' & Hf').
    exists s'. split; [done|]. split; [done|]. split; [by etrans|]. auto.
Qed.

(** A clean-up goroutine that has run is never parked again. *)
Lemma step_unwatched (st st' : State) (pc pc' : accept_pc) (l : loc) :
  step Message json_Unmarshal (st, pc) (st', pc') →
  Inv st →
  is_Some (heap st !! l) →
  l ∉ watchers st →
  l ∉ watchers st'.
Proof.
  intros Hstep HI [s Hl] Hnin.
  destruct (step_shape Message json_Unmarshal st st' pc pc' Hstep HI)
    as [->|[(l0 & s0 & s0' & Hl0 & -> & _)|[(fr & _ & ->)|(l0 & s0 & _ & _ & _ & ->)]]];
    simpl; [done|done| |].
  - intros [Heq%elem_of_singleton|Hin]%elem_of_union; [|done].
    by apply (fresh_not_allocated st l s).
  - intros [Hin _]%elem_of_difference. done.
Qed.

Lemma steps_unwatched (cfg cfg' : State * accept_pc) (l : loc) :
  rtc (step Message json_Unmarshal) cfg cfg' →
  Inv cfg.1 →
  is_Some (heap cfg.1 !! l) →
  l ∉ watchers cfg.1 →
  l ∉ watchers cfg'.1.
Proof.
  intros Hsteps. induction Hsteps as [cfg|[st pc] [st1 pc1] cfg' Hstep _ IH];
    intros HI Hl Hnin; [done|].
  apply IH.
  - by apply (step_inv Message json_Unmarshal st st1 pc pc1).
  - destruct Hl as [s Hl].
    destruct (step_socket st st1 pc pc1 l s Hstep HI Hl) as (s' & Hl' & _). eauto.
  - by apply (step_unwatched st st1 pc pc1).
Qed.

(** The handlers started are the sockets allocated, each once. *)
Lemma step_handled (st st' : State) (pc pc' : accept_pc) :
  step Message json_Unmarshal (st, pc) (st', pc') →
  Inv st →
  (NoDup (handled st) ∧ ∀ l, l ∈ handled st ↔ is_Some (heap st !! l)) →
  NoDup (handled st') ∧ ∀ l, l ∈ handled st' ↔ is_Some (heap st' !! l).
Proof.
  intros Hstep HI [Hnd Hdom].
  destruct (step_shape Message json_Unmarshal st st' pc pc' Hstep HI)
    as [->|[(l0 & s0 & s0' & Hl0 & -> & _)|[(fr & _ & ->)|(l0 & s0 & _ & _ & _ & ->)]]];
    simpl; [done| | |done].
  - split; [done|]. intros l. rewrite Hdom. destruct (decide (l0 = l)) as [->|Hne].
    + rewrite lookup_insert_eq, Hl0. split; eauto.
    + by rewrite lookup_insert_ne.
  - assert (Hf : heap st !! fresh (dom (heap st)) = None).
    { apply not_elem_of_dom, is_fresh. }
    split.
    + apply NoDup_app. split; [done|]. split; [|apply NoDup_singleton].
      intros l Hin Hin'. apply list_elem_of_singleton in Hin' as ->.
      apply Hdom in Hin as [s Hs]. congruence.
    + intros l. rewrite elem_of_app, list_elem_of_singleton, Hdom.
      destruct (decide (fresh (dom (heap st)) = l)) as [<-|Hne].
      * rewrite lookup_insert_eq. split; eauto.
      * rewrite lookup_insert_ne by done. split; [intros [?|?]; [done|congruence]|auto].
Qed.

End more_listener_facts.

(** ** Further properties of the listener and its sockets *)

Section listener_extras.
Import Listener System.
Variable Message : Type.
Variable json_Unmarshal : string → option Message → option Message * option error.

Abbreviation reachable'' := (reachable Message json_Unmarshal).
Abbreviation steps'' := (rtc (step Message json_Unmarshal)).

(** X1. Session isolation. In a reachable state the loop body on a frame
    succeeds, leaves the registry entry of every other subject as it is, and
    leaves every socket whose first frame has another reply subject as it
    is. *)
Theorem frame_leaves_other_sessions (c : Conn) (a : string) (st : State) (fr : Msg) :
  reachable'' c a st →
  ∃ st', dispatch fr st = Done st' ∧
         (∀ k, k ≠ Reply fr → so (lis st') !! k = so (lis st) !! k) ∧
         (∀ l s, heap st !! l = Some s → Reply (Socket.m s) ≠ Reply fr →
                 heap st' !! l = Some s).
Proof.
  intros Hr. pose proof (reachable_inv Message json_Unmarshal c a st Hr) as HI.
  destruct (dispatch_inv st fr HI) as (st' & E & _). exists st'. split; [done|].
  destruct (dispatch_shape st st' fr HI E)
    as [(l0 & s0 & s0' & Hk0 & Hl0 & Hm0 & -> & _)|[Hk0 ->]]; simpl.
  - split; [done|]. intros l s Hl Hne. rewrite lookup_insert_ne; [done|].
    intros ->. congruence.
  - split.
    + intros k Hne. by rewrite lookup_insert_ne.
    + intros l s Hl _. rewrite lookup_insert_ne; [done|]. by apply (fresh_not_allocated st l s).
Qed.

(** X2. The accept loop over frames of any subjects, in a reachable state:
    the session of subject [k] ends up holding what it held followed by the
    frames of subject [k], in their order of arrival; the frames of other
    subjects do not show in it. *)
Theorem sessions_demultiplexed (c : Conn) (a : string) (st : State) (k : string)
    (ps fs : list Msg) :
  reachable'' c a st →
  session_pending st k ps →
  ∃ st', Accept_loop (inl <$> fs) st = Done (st', Polling) ∧
         session_pending st' k (ps ++ filter (λ fr, Reply fr = k) fs).
Proof.
  intros Hr Hs. pose proof (reachable_inv Message json_Unmarshal c a st Hr) as HI.
  destruct (Accept_loop_demux fs st k ps HI Hs) as (st' & E & _ & Hs'). by exists st'.
Qed.

(** X3. A closed socket stays closed whatever the goroutines do, the check
    and the enqueue of the accept loop being separate steps: it stays in the
    store, and the frames it holds together with the frame that had passed
    the check before the close and is still to be put in its backlog are
    only taken from the front. When no such frame is on its way, none comes
    later and what the socket holds is only taken from the front. *)
Theorem closed_socket_only_drains (c : Conn) (a : string) (st st' : State)
    (pc pc' : accept_pc) (l : loc) (s : Socket.ntportSocket) :
  steps'' (init c a, Idle) (st, pc) →
  steps'' (st, pc) (st', pc') →
  heap st !! l = Some s →
  Chan.closed (Socket.close s) = true →
  ∃ s', heap st' !! l = Some s' ∧ Chan.closed (Socket.close s') = true ∧
        (pending s' ++ inflight l pc') `suffix_of` (pending s ++ inflight l pc) ∧
        (inflight l pc = [] → inflight l pc' = [] ∧ pending s' `suffix_of` pending s).
Proof.
  intros Hr Hsteps Hl Hc.
  pose proof (steps_inv Message json_Unmarshal _ _ Hr (init_inv c a)) as HI.
  destruct (steps_closed Message json_Unmarshal (st, pc) (st', pc') l s Hsteps HI Hl Hc)
    as (s' & Hl' & Hc' & Hs' & Hf').
  exists s'. split; [done|]. split; [done|]. split; [done|].
  simpl in *. intros Hfl. specialize (Hf' Hfl). split; [done|].
  by rewrite Hfl, Hf', !app_nil_r in Hs'.
Qed.

(** X4. The clean-up goroutine of a socket waits while the socket is open.
    Once the socket is closed it runs: the entry it deletes is the one of its
    own socket, the other entries and all sockets stay, and it never runs
    again, so it cannot delete the entry of a later socket of the subject. *)
Theorem cleanup_removes_own_entry_once (c : Conn) (a : string) (st : State) (l : loc)
    (s : Socket.ntportSocket) :
  reachable'' c a st →
  l ∈ watchers st →
  heap st !! l = Some s →
  (is_open s → cleanup l st = Blocked) ∧
  (Chan.closed (Socket.close s) = true →
   ∃ st', cleanup l st = Done st' ∧
          so (lis st) !! Reply (Socket.m s) = Some l ∧
          so (lis st') = delete (Reply (Socket.m s)) (so (lis st)) ∧
          heap st' = heap st ∧
          ∀ pc st'' pc'', steps'' (st', pc) (st'', pc'') → l ∉ watchers st'').
Proof.
  intros Hr Hin Hl. pose proof (reachable_inv Message json_Unmarshal c a st Hr) as HI.
  pose proof (proj1 (inv_heap _ HI l s Hl)) as Hok.
  split.
  - intros Ho. unfold cleanup, Chan.recv. by rewrite Hl, (ok_close_buf _ Hok), Ho.
  - intros Hc.
    assert (E : cleanup l st =
                Done (mkState (set_so (delete (Reply (Socket.m s)) (so (lis st))) (lis st))
                              (heap st) (watchers st ∖ {[l]}) (handled st))).
    { unfold cleanup, Chan.recv. by rewrite Hl, (ok_close_buf _ Hok), Hc. }
    eexists. split; [exact E|].
    destruct (inv_watch _ HI l Hin) as (s1 & Hl1 & Hk1). assert (s1 = s) as -> by congruence.
    split; [done|]. split; [done|]. split; [done|].
    intros pc st'' pc'' Hsteps.
    destruct (cleanup_inv st _ l HI Hin E) as [HI' _].
    apply (steps_unwatched Message json_Unmarshal _ (st'', pc'') l Hsteps HI'); simpl; [eauto|].
    intros [_ Hne]%elem_of_difference. apply Hne. by apply elem_of_singleton.
Qed.

(** X5. In every reachable state the handler has been started once for
    each socket that was made, and for nothing else. *)
Theorem handler_started_once_per_socket (c : Conn) (a : string) (st : State) :
  reachable'' c a st →
  NoDup (handled st) ∧ ∀ l, l ∈ handled st ↔ is_Some (heap st !! l).
Proof.
  intros [pc Hr].
  refine (rtc_ind_r (R := step Message json_Unmarshal)
            (λ z, NoDup (handled z.1) ∧ ∀ l, l ∈ handled z.1 ↔ is_Some (heap z.1 !! l))
            (init c a, Idle) _ _ (st, pc) Hr).
  - simpl. split; [apply NoDup_nil_2|].
    intros l. rewrite lookup_empty. split; [by intros ?%elem_of_nil|by intros [? ?]].
  - intros [y pcy] [z pcz] Hy Hyz IH.
    apply (step_handled Message json_Unmarshal y z pcy pcz Hyz); [|done].
    apply (steps_inv Message json_Unmarshal _ _ Hy), init_inv.
Qed.

(** X6. [Close] discards nothing: on a socket of a reachable state [Close]
    succeeds, and as many [Recv] as frames were pending then return these
    frames in order and not [io.EOF]; the socket is closed and empty
    afterwards. *)
Theorem Close_keeps_pending_frames (c : Conn) (a : string) (st : State) (l : loc)
    (s : Socket.ntportSocket) (outs : list Message) :
  reachable'' c a st →
  heap st !! l = Some s →
  length outs = length (pending s) →
  ∃ s1 s',
    Socket.Close s = Done (s1, None) ∧
    Recv_seq Message json_Unmarshal outs s1 =
      Done (s', zip_with (λ out fr, Socket.decode_into Message json_Unmarshal (Data fr) out)
                         outs (pending s)) ∧
    pending s' = [] ∧ Chan.closed (Socket.close s') = true.
Proof.
  intros Hr Hl Hlen. pose proof (reachable_inv Message json_Unmarshal c a st Hr) as HI.
  destruct (Close_ok s (proj1 (inv_heap _ HI l s Hl))) as (s1 & E & Hok1 & Hc1 & _ & Hr1 & Hb1 & _).
  assert (Hp1 : pending s1 = pending s) by (unfold pending; by rewrite Hr1, Hb1).
  destruct (Recv_seq_pending Message json_Unmarshal (pending s) outs s1 Hok1 Hp1 Hlen)
    as (s' & E' & _ & Hp' & Hc').
  exists s1, s'. split; [done|]. split; [done|]. split; [done|]. congruence.
Qed.

(** X7. A frame that does not decode is taken all the same: [Recv] returns
    the error of the decoder, the frame is gone from the socket, the socket
    is not closed and the frames behind it are still pending. *)
Theorem Recv_decode_error_consumes_frame (c : Conn) (a : string) (st : State) (l : loc)
    (s : Socket.ntportSocket) (out : Message) (fr : Msg) (ps : list Msg)
    (p : option Message) (err : error) :
  reachable'' c a st →
  heap st !! l = Some s →
  pending s = fr :: ps →
  json_Unmarshal (Data fr) (Some out) = (p, Some err) →
  ∃ s', Socket.Recv Message json_Unmarshal (Some out) s = Done (s', Some (default out p), Some err) ∧
        pending s' = ps ∧ Socket.close s' = Socket.close s.
Proof.
  intros Hr Hl Hp Hdec. pose proof (reachable_inv Message json_Unmarshal c a st Hr) as HI.
  destruct (Recv_head Message json_Unmarshal s out fr ps (proj1 (inv_heap _ HI l s Hl)) Hp)
    as (s' & E & _ & Hp' & Hc' & _).
  exists s'. split; [|done]. rewrite E. unfold Socket.decode_into. by rewrite Hdec.
Qed.

(** X8. The entry of subject [k] holds a socket whose first frame has reply
    subject [k], and a socket keeps its first frame for ever: its replies go
    to that subject, also after the entry is deleted and the subject has a
    new socket. *)
Theorem socket_keeps_reply_subject (c : Conn) (a : string) (st st' : State)
    (pc pc' : accept_pc) (k : string) (l : loc) (s : Socket.ntportSocket) :
  reachable'' c a st →
  so (lis st) !! k = Some l →
  heap st !! l = Some s →
  steps'' (st, pc) (st', pc') →
  Reply (Socket.m s) = k ∧
  ∃ s', heap st' !! l = Some s' ∧ Socket.m s' = Socket.m s.
Proof.
  intros Hr Hk Hl Hsteps. pose proof (reachable_inv Message json_Unmarshal c a st Hr) as HI.
  split.
  - destruct (inv_so _ HI k l Hk) as (s1 & Hl1 & Hm1 & _). congruence.
  - destruct (steps_socket Message json_Unmarshal (st, pc) (st', pc') l s Hsteps HI Hl)
      as (s' & Hl' & Hm' & _).
    by exists s'.
Qed.

End listener_extras.

(** ** Further properties of the factory, the client and the listener's close *)

Section transport_extras.
Variable TLS : Type.
Variable DefaultURL : string.
Variable DefaultOptions : Transport.NatsOptions TLS.
Variable DefaultDialTimeout : Z.
Variable Connect : Transport.NatsOptions TLS → Conn + error.
Variable inbox_name : nat → string.

Abbreviation Listen' := (Transport.Listen TLS DefaultOptions Connect inbox_name).
Abbreviation Dial' := (Transport.Dial TLS DefaultDialTimeout Connect inbox_name).
Abbreviation dial_timeout dialOpts :=
  (Transport.Timeout (fold_left (λ o f, f o) dialOpts (Transport.mkDialOptions DefaultDialTimeout))).

Lemma normalize_prefixed (addrs : list string) :
  Forall (λ a, String.prefix "nats://" a = true) (AddrSpec.normalize addrs).
Proof.
  unfold AddrSpec.normalize. apply Forall_fmap, Forall_forall.
  intros x _. simpl. unfold AddrSpec.canonical.
  destruct (String.prefix "nats://" x) eqn:E; [done|]. apply prefix_append.
Qed.

(** A list of addresses that all have the scheme is its own normal form. *)
Lemma normalize_fixed (l : list string) :
  Forall (λ a, String.prefix "nats://" a = true) l → AddrSpec.normalize l = l.
Proof.
  unfold AddrSpec.normalize. induction 1 as [|a l Ha Hl IH]; [done|].
  rewrite filter_cons. case_decide as Hne.
  - rewrite fmap_cons, IH. unfold AddrSpec.canonical. by rewrite Ha.
  - exfalso. assert (a = "") as -> by (by destruct (decide (a = "")); [|exfalso; auto]).
    discriminate.
Qed.

(** X9. [NewTransport] never stores an empty list of servers, and when the
    default URL has the scheme, building a transport from the servers of a
    transport gives the same servers again. *)
Theorem NewTransport_servers_stable (addrs : list string)
    (os os' : list (Transport.Options TLS → Transport.Options TLS)) :
  String.prefix "nats://" DefaultURL = true →
  Transport.addrs TLS (Transport.NewTransport TLS DefaultURL addrs os) ≠ [] ∧
  Transport.addrs TLS
    (Transport.NewTransport TLS DefaultURL
       (Transport.addrs TLS (Transport.NewTransport TLS DefaultURL addrs os)) os') =
  Transport.addrs TLS (Transport.NewTransport TLS DefaultURL addrs os).
Proof.
  intros Hd.
  assert (Hst : ∀ l o, Transport.addrs TLS (Transport.NewTransport TLS DefaultURL l o) =
                       if decide (AddrSpec.normalize l = []) then [DefaultURL]
                       else AddrSpec.normalize l).
  { intros l o. unfold Transport.NewTransport; simpl. rewrite add_addr_fold; simpl.
    by destruct (AddrSpec.normalize l). }
  assert (Hall : Forall (λ a, String.prefix "nats://" a = true)
                        (Transport.addrs TLS (Transport.NewTransport TLS DefaultURL addrs os))).
  { rewrite Hst. case_decide; [by repeat constructor|apply normalize_prefixed]. }
  assert (Hne : Transport.addrs TLS (Transport.NewTransport TLS DefaultURL addrs os) ≠ []).
  { rewrite Hst. by case_decide. }
  split; [done|].
  rewrite (Hst (Transport.addrs TLS _)), (normalize_fixed _ Hall). by case_decide.
Qed.

(** X10. When the connection is made and the next inbox is not subscribed
    yet, [Dial] returns a client for the address it was given, whose reply
    subject is that inbox and whose subscription is on it, with an empty
    queue on the bus; nothing else on the bus changes, and every later
    [Dial] gives a client with another reply subject. *)
Theorem Dial_client (n : Transport.ntport TLS) (addr : string)
    (dialOpts : list (Transport.DialOptions → Transport.DialOptions))
    (w : Bus.World) (c : Conn) :
  Connect (Transport.connect_options TLS n (dial_timeout dialOpts)) = inl c →
  c ∉ Bus.gone w →
  Bus.subs w !! inbox_name (Bus.nuid w) = None →
  (∀ i j, inbox_name i = inbox_name j → i = j) →
  Dial' n addr dialOpts w =
    (inl (Client.mk c addr (inbox_name (Bus.nuid w)) (inbox_name (Bus.nuid w))),
     Bus.mkWorld (<[inbox_name (Bus.nuid w) := (c, [])]> (Bus.subs w)) (Bus.gone w)
                 (S (Bus.nuid w))) ∧
  ∀ n2 addr2 dialOpts2 w2 cl2 w3,
    Bus.nuid w < Bus.nuid w2 →
    Dial' n2 addr2 dialOpts2 w2 = (inl cl2, w3) →
    Client.id cl2 ≠ inbox_name (Bus.nuid w).
Proof.
  intros HC Hg Hs Hinj. split.
  - unfold Transport.Dial. rewrite HC. simpl. unfold Bus.SubscribeSync. simpl.
    rewrite bool_decide_eq_false_2 by done. by rewrite Hs.
  - intros n2 addr2 dialOpts2 w2 cl2 w3 Hlt. unfold Transport.Dial.
    destruct (Connect (Transport.connect_options TLS n2 (dial_timeout dialOpts2)))
      as [c2|e2]; [|discriminate].
    simpl.
    destruct (Bus.SubscribeSync c2 (inbox_name (Bus.nuid w2)) _) as [[sub|e] w4];
      [|discriminate].
    intros [= <- _]. simpl. intros Heq%Hinj. lia.
Qed.

(** X11. [Listener.Close] is not idempotent. On the listener that [Listen]
    returns, a first [Close] succeeds, also when [Accept] never ran, and
    closes the connection; a second [Close] waits on the full channel [exit]
    until the goroutine started by [Accept] has taken the signal, after which
    the channel is empty again. *)
Theorem Listener_Close_twice_waits (n : Transport.ntport TLS) (addr : string)
    (w w' w1 : Bus.World) (l : Listener.ntportListener) (sub : string) :
  Listen' n addr w = (inl l, w') →
  ∃ l1 l2,
    Listener.Close l w' = (Done (l1, None), Bus.Close (Listener.conn l) w') ∧
    Listener.conn l ∈ Bus.gone (Bus.Close (Listener.conn l) w') ∧
    Listener.Close l1 w1 = (Blocked, w1) ∧
    Listener.exit_watch sub l1 w1 =
      (Done (l2, (Bus.Unsubscribe sub w1).1), (Bus.Unsubscribe sub w1).2) ∧
    Listener.exit l2 = Listener.exit l.
Proof.
  unfold Transport.Listen. destruct (Connect _) as [c|e]; [|discriminate].
  simpl. intros [= <- <-].
  eexists _, _. split; [reflexivity|]. simpl.
  split; [by apply elem_of_union_l, elem_of_singleton|].
  split; [reflexivity|]. split; reflexivity.
Qed.

End transport_extras.

Section exchange_extras.
Import System.
Variable Message : Type.
Variable json_Marshal : option Message → string + error.
Variable json_Unmarshal : string → option Message → option Message * option error.
Variable TLS : Type.
Variable DefaultOptions : Transport.NatsOptions TLS.
Variable DefaultDialTimeout : Z.
Variable Connect : Transport.NatsOptions TLS → Conn + error.
Variable inbox_name : nat → string.

(** X12. A handler that replies with a nil message brings the client down:
    when the encoding of the nil pointer decodes to a nil pointer without an
    error (as JSON null does), [Send] of nil succeeds and the client's [Recv]
    of that reply panics on [*m = *mr]. *)
Theorem nil_reply_panics_client (s : Socket.ntportSocket) (cl : Client.ntportClient)
    (w : Bus.World) (cc : Conn) (out : Message) (b : string) :
  json_Marshal None = inl b →
  json_Unmarshal b None = (None, None) →
  Socket.conn s ∉ Bus.gone w →
  Bus.subs w !! Reply (Socket.m s) = Some (cc, []) →
  Client.sub cl = Reply (Socket.m s) →
  ∃ w1 w2,
    Socket.Send Message json_Marshal None s w = (None, w1) ∧
    Client.Recv Message json_Unmarshal (Some out) cl w1 = (Panicked, w2).
Proof.
  intros HM HU Hg Hs Hsub.
  eexists _, _. split.
  - unfold Socket.Send, Bus.Publish, Bus.publish. rewrite HM. simpl.
    rewrite bool_decide_eq_false_2 by done. by rewrite Hs.
  - unfold Client.Recv, Bus.NextMsg. rewrite Hsub. simpl. rewrite lookup_insert_eq.
    simpl. by rewrite HU.
Qed.

(** X13. From the constructors on: a listener made by [Listen] subscribes
    in [Accept]; a client dialled to the listener's [Addr] sends [msg]; the
    accept loop polls it and makes the socket; the handler's [Recv] takes
    the frame and leaves in the handler's message what the encoding of [msg]
    decodes to there ([msg], when decoding into that message gives what
    decoding into a nil pointer gives); its [Send] of [reply] succeeds; the
    client's [Recv] yields [reply]. The connections are made and open, the
    two inboxes are not subscribed before, inbox names are unique and what
    is encoded from a message decodes to it into a pointer that holds nil. *)
Theorem dial_listen_round_trip (n : Transport.ntport TLS) (addr0 : string)
    (dialOpts : list (Transport.DialOptions → Transport.DialOptions))
    (w0 : Bus.World) (cs cc : Conn) (msg reply sout cout : Message) (b b' : string) :
  (∀ (v : Message) (d : string),
      json_Marshal (Some v) = inl d → json_Unmarshal d None = (Some v, None)) →
  Connect (Transport.connect_options TLS n (Transport.nTimeout TLS DefaultOptions)) = inl cs →
  Connect (Transport.connect_options TLS n
             (Transport.Timeout (fold_left (λ o f, f o) dialOpts
                                           (Transport.mkDialOptions DefaultDialTimeout)))) = inl cc →
  (∀ i j, inbox_name i = inbox_name j → i = j) →
  cs ∉ Bus.gone w0 → cc ∉ Bus.gone w0 →
  Bus.subs w0 !! inbox_name (Bus.nuid w0) = None →
  Bus.subs w0 !! inbox_name (S (Bus.nuid w0)) = None →
  json_Marshal (Some msg) = inl b →
  json_Marshal (Some reply) = inl b' →
  ∃ lst cl w1 w2 w3 w4 w5 w6 w7 st1 l s1 s2,
    Transport.Listen TLS DefaultOptions Connect inbox_name n addr0 w0 = (inl lst, w1) ∧
    Listener.Accept_subscribe lst w1 = (inl (Listener.Addr lst), w2) ∧
    Transport.Dial TLS DefaultDialTimeout Connect inbox_name n (Listener.Addr lst) dialOpts w2 =
      (inl cl, w3) ∧
    Client.Send Message json_Marshal (Some msg) cl w3 = (None, w4) ∧
    Listener.Accept_poll (Listener.Addr lst)
      (Listener.init (Listener.conn lst) (Listener.Addr lst)) w4 =
      (Done (st1, Listener.Polling), w5) ∧
    Listener.so (Listener.lis st1) !! Client.id cl = Some l ∧
    Listener.heap st1 !! l = Some s1 ∧
    Socket.Recv Message json_Unmarshal (Some sout) s1 =
      Done (s2, Some (default sout (json_Unmarshal b (Some sout)).1),
            (json_Unmarshal b (Some sout)).2) ∧
    (json_Unmarshal b (Some sout) = json_Unmarshal b None →
     Socket.Recv Message json_Unmarshal (Some sout) s1 = Done (s2, Some msg, None)) ∧
    Socket.Send Message json_Marshal (Some reply) s2 w5 = (None, w6) ∧
    Client.Recv Message json_Unmarshal (Some cout) cl w6 = (Done (Some reply, None), w7).
Proof.
  intros Hrt HCs HCc Hinj Hgs Hgc HsA HsI HM HM'.
  set (A := inbox_name (Bus.nuid w0)) in *.
  set (I := inbox_name (S (Bus.nuid w0))) in *.
  assert (HAI : A ≠ I).
  { intros Heq%Hinj. lia. }
  set (fr := mkMsg A I b). set (rp := mkMsg I "" b').
  set (lst := Listener.mk cs A (Chan.make 1) ∅).
  set (cl := Client.mk cc A I I).
  set (m0 := Bus.subs w0) in *.
  set (m2 := <[A := (cs, [])]> m0).
  set (m3 := <[I := (cc, [])]> m2).
  set (m4 := <[A := (cs, [fr])]> m3).
  set (m5 := <[A := (cs, [])]> m4).
  set (m6 := <[I := (cc, [rp])]> m5).
  set (g := Bus.gone w0) in *.
  set (s1 := Socket.mk cs fr (Chan.mk 1 [fr] false) false (Chan.make 0) []).
  set (s2 := Socket.mk cs fr (Chan.mk 1 [] false) false (Chan.make 0) []).
  exists lst, cl,
    (Bus.mkWorld m0 g (S (Bus.nuid w0))), (Bus.mkWorld m2 g (S (Bus.nuid w0))),
    (Bus.mkWorld m3 g (S (S (Bus.nuid w0)))), (Bus.mkWorld m4 g (S (S (Bus.nuid w0)))),
    (Bus.mkWorld m5 g (S (S (Bus.nuid w0)))), (Bus.mkWorld m6 g (S (S (Bus.nuid w0)))).
  eexists _, _, (fresh (dom (∅ : gmap Listener.loc Socket.ntportSocket))), s1, s2.
  split.
  { unfold Transport.Listen. by rewrite HCs. }
  split.
  { unfold Listener.Accept_subscribe, Bus.SubscribeSync. simpl.
    rewrite bool_decide_eq_false_2 by done. by rewrite HsA. }
  split.
  { unfold Transport.Dial. simpl. rewrite HCc. simpl. unfold Bus.SubscribeSync. simpl.
    rewrite bool_decide_eq_false_2 by done. fold I. unfold m2.
    rewrite lookup_insert_ne by done. by rewrite HsI. }
  split.
  { unfold Client.Send, Bus.PublishRequest, Bus.publish. rewrite HM. simpl.
    rewrite bool_decide_eq_false_2 by done. unfold m3.
    rewrite lookup_insert_ne by done. unfold m2. by rewrite lookup_insert_eq. }
  split.
  { unfold Listener.Accept_poll, Bus.NextMsg. simpl. unfold m4. rewrite lookup_insert_eq.
    unfold Listener.Accept_iter.
    rewrite (dispatch_new (Listener.init cs A) fr) by apply lookup_empty. reflexivity. }
  simpl. rewrite !lookup_insert_eq.
  split; [done|]. split; [done|].
  split.
  { unfold Socket.Recv, Socket.decode_into. simpl.
    by destruct (json_Unmarshal b (Some sout)). }
  split.
  { intros Heq. unfold Socket.Recv, Socket.decode_into. simpl.
    by rewrite Heq, (Hrt msg b HM). }
  split.
  { unfold Socket.Send, Bus.Publish, Bus.publish. rewrite HM'. simpl.
    rewrite bool_decide_eq_false_2 by done. unfold m5, m4.
    rewrite !lookup_insert_ne by done. unfold m3. by rewrite lookup_insert_eq. }
  unfold Client.Recv, Bus.NextMsg. simpl. unfold m6. rewrite lookup_insert_eq. simpl.
  by rewrite (Hrt reply b' HM').
Qed.

End exchange_extras.

(** ** The properties at work on the small run *)

Section small_run.
Import Listener System Run.

Lemma st1_run : rtc (step string decode) (st0, Idle) (st1, Idle).
Proof. apply (dispatch_steps string decode ping). vm_compute. reflexivity. Defined.

Lemma st1_reachable : reachable string decode 0 "srv" st1.
Proof. exists Idle. apply st1_run. Defined.

Lemma st2_run : rtc (step string decode) (st0, Idle) (st2, Idle).
Proof.
  eapply rtc_r; [apply st1_run|].
  apply (step_close string decode 0). vm_compute. reflexivity.
Defined.

Lemma st2_reachable : reachable string decode 0 "srv" st2.
Proof. exists Idle. apply st2_run. Defined.

(** the accept loop has found the socket open for a second frame, and the
    handler closes the socket before the frame is put in the backlog *)
Lemma st2_checked_run : rtc (step string decode) (st0, Idle) (st2, Checked 0 ping2).
Proof.
  eapply rtc_r; [eapply rtc_r; [eapply rtc_r; [apply st1_run|]|]|].
  - apply (step_lookup string decode ping2 st1 0 st1). vm_compute. reflexivity.
  - apply (step_check_open string decode 0 ping2 st1 st1). vm_compute. reflexivity.
  - apply (step_close string decode 0). vm_compute. reflexivity.
Defined.

Lemma inbox_inj (i j : nat) : inbox i = inbox j → i = j.
Proof. unfold inbox. intros H. by apply (inj _), (inj pretty) in H. Defined.

Lemma fifo_within_session_witness :
  ∃ st' l s,
    Accept_loop (inl <$> [ping; ping2; ping3]) st0 = Done (st', Polling) ∧
    so (lis st') !! "_INBOX.1" = Some l ∧ heap st' !! l = Some s ∧
    ∀ outs : list string, length outs = length ([] ++ [ping; ping2; ping3]) →
      ∃ s', Recv_seq string decode outs s =
              Done (s', zip_with (λ out fr, Socket.decode_into string decode (Data fr) out)
                                 outs ([] ++ [ping; ping2; ping3])) ∧
            pending s' = [] ∧
            ∀ out, Socket.Recv string decode (Some out) s' = Blocked.
Proof.
  apply (fifo_within_session string decode st0 "_INBOX.1" [] [ping; ping2; ping3]).
  - left. split; reflexivity.
  - repeat constructor.
  - discriminate.
Defined.

Lemma Close_idempotent_witness :
  ∃ s', Close_times 3 (Socket.mk 0 ping (Chan.mk 1 [ping] false) false (Chan.make 0) []) =
          Done (s', replicate 3 None, 1) ∧
        Chan.closed (Socket.close s') = true.
Proof.
  apply (Close_idempotent string decode 0 "srv" st1 0
           (Socket.mk 0 ping (Chan.mk 1 [ping] false) false (Chan.make 0) []) 3).
  - apply st1_reachable.
  - vm_compute. reflexivity.
Defined.

Lemma frame_for_closed_socket_dropped_witness :
  dispatch ping2 st2 = Done st2 ∧ Accept_iter (inl ping2) st2 = Done (st2, Polling).
Proof.
  eapply (frame_for_closed_socket_dropped string decode 0 "srv" st2 ping2).
  - apply st2_reachable.
  - vm_compute. reflexivity.
  - vm_compute. reflexivity.
  - vm_compute. reflexivity.
Defined.

Lemma registry_one_live_socket_and_reuse_witness :
  ∃ st3 st4,
    Close_at 0 st1 = Done st3 ∧ 0 ∈ watchers st3 ∧ cleanup 0 st3 = Done st4 ∧
    so (lis st4) !! "_INBOX.1" = None ∧
    ∀ fr, Reply fr = "_INBOX.1" →
      ∃ st5 l',
        dispatch fr st4 = Done st5 ∧
        so (lis st5) !! "_INBOX.1" = Some l' ∧
        l' ≠ 0 ∧ heap st4 !! l' = None ∧
        heap st5 !! l' = Some (Socket.mk (conn (lis st4)) fr (Chan.mk 1 [fr] false)
                                         false (Chan.make 0) []) ∧
        heap st5 !! 0 = heap st4 !! 0.
Proof.
  apply (proj2 (registry_one_live_socket_and_reuse string decode 0 "srv" st1
                  st1_reachable) "_INBOX.1" 0).
  vm_compute. reflexivity.
Defined.

Lemma Accept_returns_only_non_timeout_error_witness :
  ∃ st', Accept_loop [inr ErrTimeout; inl ping; inr ErrConnectionClosed; inl ping2] st0 =
           Done (st', Returned ErrConnectionClosed).
Proof.
  destruct (Accept_returns_only_non_timeout_error string decode 0 "srv" st0
              [inr ErrTimeout; inl ping; inr ErrConnectionClosed; inl ping2])
    as (_ & _ & _ & H & _).
  - exists Idle. apply rtc_refl.
  - apply H. reflexivity.
Defined.

Lemma Listen_subject_is_new_inbox_witness :
  ∃ l w',
    Transport.Listen unit (Transport.mkNatsOptions unit [] false None 2) (λ _, inl 5) inbox
                     transport "127.0.0.1:9999" world = (inl l, w') ∧
    Listener.Addr l = "_INBOX.2".
Proof.
  destruct (Listen_subject_is_new_inbox unit (Transport.mkNatsOptions unit [] false None 2)
              (λ _, inl 5) Run.inbox Run.transport "127.0.0.1:9999" "" world 5)
    as (l & w' & E & _ & Ha & _).
  - reflexivity.
  - apply inbox_inj.
  - exists l, w'. split; [exact E|]. rewrite Ha. vm_compute. reflexivity.
Defined.

Lemma request_reply_round_trip_witness :
  ∃ w3 w4,
    Client.Recv string decode_keep (Some "") client w3 = (Done (Some "pong", None), w4).
Proof.
  destruct (request_reply_round_trip string encode decode_keep) with
    (c := 0) (a := "srv") (cl := client) (st := st0) (w := world) (cs := 0) (cc := 1)
    (msg := "ping") (reply := "pong") (sout := "") (cout := "") (b := "ping") (b' := "pong")
    as (w1 & w2 & w3 & w4 & st' & l & s1 & s2 & s3 & _ & _ & _ & _ & _ & _ & _ & _ & E).
  - intros v b [= <-]. reflexivity.
  - exists Idle. apply rtc_refl.
  - left. split; [apply lookup_empty|reflexivity].
  - reflexivity.
  - reflexivity.
  - discriminate.
  - vm_compute. reflexivity.
  - vm_compute. reflexivity.
  - apply not_elem_of_empty.
  - apply not_elem_of_empty.
  - reflexivity.
  - reflexivity.
  - by exists w3, w4.
Defined.

Lemma frame_leaves_other_sessions_witness :
  ∃ st', dispatch other st1 = Done st' ∧
         (∀ k, k ≠ Reply other → so (lis st') !! k = so (lis st1) !! k) ∧
         (∀ l s, heap st1 !! l = Some s → Reply (Socket.m s) ≠ Reply other →
                 heap st' !! l = Some s).
Proof. apply (frame_leaves_other_sessions string decode 0 "srv" st1 other), st1_reachable. Defined.

Lemma sessions_demultiplexed_witness :
  ∃ st', Accept_loop (inl <$> [ping; other; ping2]) st0 = Done (st', Polling) ∧
         session_pending st' "_INBOX.1"
           ([] ++ filter (λ fr, Reply fr = "_INBOX.1") [ping; other; ping2]).
Proof.
  apply (sessions_demultiplexed string decode 0 "srv" st0 "_INBOX.1" [] [ping; other; ping2]).
  - exists Idle. apply rtc_refl.
  - left. split; reflexivity.
Defined.

Lemma closed_socket_only_drains_witness :
  ∃ s', heap st2_late !! 0 = Some s' ∧ Chan.closed (Socket.close s') = true ∧
        (pending s' ++ inflight 0 Idle) `suffix_of` ([ping] ++ inflight 0 (Checked 0 ping2)).
Proof.
  destruct (closed_socket_only_drains string decode 0 "srv" st2 st2_late
              (Checked 0 ping2) Idle 0
              (Socket.mk 0 ping (Chan.mk 1 [ping] false) true (Chan.mk 0 [] true) []))
    as (s' & Hl & Hc & Hs & _).
  - apply st2_checked_run.
  - apply rtc_once, (step_enqueue string decode 0 ping2). vm_compute. reflexivity.
  - vm_compute. reflexivity.
  - reflexivity.
  - by exists s'.
Defined.

Lemma cleanup_removes_own_entry_once_witness :
  ∃ st', cleanup 0 st2 = Done st' ∧ so (lis st') = delete "_INBOX.1" (so (lis st2)).
Proof.
  destruct (cleanup_removes_own_entry_once string decode 0 "srv" st2 0
              (Socket.mk 0 ping (Chan.mk 1 [ping] false) true (Chan.mk 0 [] true) []))
    as [_ H].
  - apply st2_reachable.
  - vm_compute. reflexivity.
  - vm_compute. reflexivity.
  - destruct (H eq_refl) as (st' & E & _ & Hso & _). by exists st'.
Defined.

Lemma handler_started_once_per_socket_witness :
  NoDup (handled st1) ∧ ∀ l, l ∈ handled st1 ↔ is_Some (heap st1 !! l).
Proof. apply (handler_started_once_per_socket string decode 0 "srv" st1), st1_reachable. Defined.

Lemma Close_keeps_pending_frames_witness :
  ∃ s1 s',
    Socket.Close (Socket.mk 0 ping (Chan.mk 1 [ping] false) false (Chan.make 0) []) =
      Done (s1, None) ∧
    Recv_seq string decode [""] s1 = Done (s', [("ping", None)]) ∧
    pending s' = [] ∧ Chan.closed (Socket.close s') = true.
Proof.
  apply (Close_keeps_pending_frames string decode 0 "srv" st1 0
           (Socket.mk 0 ping (Chan.mk 1 [ping] false) false (Chan.make 0) []) [""]).
  - apply st1_reachable.
  - vm_compute. reflexivity.
  - reflexivity.
Defined.

Lemma st3_reachable : reachable string decode_strict 0 "srv" st3.
Proof.
  exists Idle.
  etrans; [apply (dispatch_steps string decode_strict bad); vm_compute; reflexivity|].
  etrans; [apply (dispatch_steps string decode_strict ping); vm_compute; reflexivity|].
  apply (dispatch_steps string decode_strict ping2). vm_compute. reflexivity.
Defined.

Lemma Recv_decode_error_consumes_frame_witness :
  ∃ s', Socket.Recv string decode_strict (Some "old")
          (Socket.mk 0 bad (Chan.mk 1 [bad] false) false (Chan.make 0) [ping; ping2]) =
          Done (s', Some "old", Some (ErrJSON "unexpected end of JSON input")) ∧
        pending s' = [ping; ping2] ∧ Socket.close s' = Chan.make 0.
Proof.
  apply (Recv_decode_error_consumes_frame string decode_strict 0 "srv" st3 0
           (Socket.mk 0 bad (Chan.mk 1 [bad] false) false (Chan.make 0) [ping; ping2])
           "old" bad [ping; ping2] (Some "old") (ErrJSON "unexpected end of JSON input")).
  - apply st3_reachable.
  - vm_compute. reflexivity.
  - reflexivity.
  - reflexivity.
Defined.

Lemma socket_keeps_reply_subject_witness :
  Reply ping = "_INBOX.1" ∧ ∃ s', heap st2 !! 0 = Some s' ∧ Socket.m s' = ping.
Proof.
  apply (socket_keeps_reply_subject string decode 0 "srv" st1 st2 Idle Idle "_INBOX.1" 0
           (Socket.mk 0 ping (Chan.mk 1 [ping] false) false (Chan.make 0) [])).
  - apply st1_reachable.
  - vm_compute. reflexivity.
  - vm_compute. reflexivity.
  - apply rtc_once, (step_close string decode 0). vm_compute. reflexivity.
Defined.

Lemma NewTransport_servers_stable_witness :
  Transport.addrs unit transport ≠ [] ∧
  Transport.addrs unit
    (Transport.NewTransport unit "nats://localhost:4222" (Transport.addrs unit transport) []) =
  Transport.addrs unit transport.
Proof.
  apply (NewTransport_servers_stable unit "nats://localhost:4222" ["127.0.0.1:4222"] [] []).
  reflexivity.
Defined.

Lemma Dial_client_witness :
  (Transport.Dial unit 5 (λ _, inl 5) inbox transport "srv" [] world).1 =
    inl (Client.mk 5 "srv" "_INBOX.2" "_INBOX.2").
Proof.
  destruct (Dial_client unit 5 (λ _, inl 5) inbox transport "srv" [] world 5) as [E _].
  - reflexivity.
  - apply not_elem_of_empty.
  - vm_compute. reflexivity.
  - apply inbox_inj.
  - rewrite E. vm_compute. reflexivity.
Defined.

Lemma Listener_Close_twice_waits_witness :
  ∃ l1, Listener.Close (Listener.mk 5 "_INBOX.2" (Chan.make 1) ∅)
          (Bus.mkWorld (Bus.subs world) (Bus.gone world) 3) =
          (Done (l1, None), Bus.Close 5 (Bus.mkWorld (Bus.subs world) (Bus.gone world) 3)) ∧
        Listener.Close l1 world = (Blocked, world).
Proof.
  destruct (Listener_Close_twice_waits unit (Transport.mkNatsOptions unit [] false None 2)
              (λ _, inl 5) inbox transport "127.0.0.1:9999" world
              (Bus.mkWorld (Bus.subs world) (Bus.gone world) 3) world
              (Listener.mk 5 "_INBOX.2" (Chan.make 1) ∅) "_INBOX.2")
    as (l1 & l2 & E1 & _ & E2 & _).
  - vm_compute. reflexivity.
  - exists l1. simpl in E1. by split.
Defined.

Lemma nil_reply_panics_client_witness :
  ∃ w1 w2,
    Socket.Send string encode None
      (Socket.mk 0 ping (Chan.mk 1 [] false) false (Chan.make 0) []) world = (None, w1) ∧
    Client.Recv string decode_null (Some "") client w1 = (Panicked, w2).
Proof.
  apply (nil_reply_panics_client string encode decode_null
           (Socket.mk 0 ping (Chan.mk 1 [] false) false (Chan.make 0) []) client world 1 ""
           "null").
  - reflexivity.
  - reflexivity.
  - apply not_elem_of_empty.
  - vm_compute. reflexivity.
  - reflexivity.
Defined.

Lemma dial_listen_round_trip_witness :
  ∃ cl w6 w7,
    Client.Recv string decode_keep (Some "") cl w6 = (Done (Some "pong", None), w7).
Proof.
  destruct (dial_listen_round_trip string encode decode_keep unit
              (Transport.mkNatsOptions unit [] false None 2) 5 (λ _, inl 5) inbox
              transport "127.0.0.1:9999" [] empty_world 5 5 "ping" "pong" "" "" "ping" "pong")
    as (lst & cl & w1 & w2 & w3 & w4 & w5 & w6 & w7 & st' & l & s1 & s2 &
        _ & _ & _ & _ & _ & _ & _ & _ & _ & _ & E).
  - intros v d [= <-]. reflexivity.
  - reflexivity.
  - reflexivity.
  - apply inbox_inj.
  - apply not_elem_of_empty.
  - apply not_elem_of_empty.
  - apply lookup_empty.
  - apply lookup_empty.
  - reflexivity.
  - reflexivity.
  - by exists cl, w6, w7.
Defined.

End small_run.
